(** * Earthquake visualizer: timeline, filter pipeline, fetch and playback

    A shallow embedding of [src/App.jsx] (and of the stand-alone
    [HeatmapLayer] component).  The React component keeps its state in
    hooks; here every hook value is a field of a record and every handler
    or effect is a function on that record.  The derived values ([sorted],
    [times], [filtered], [heatPoints]) are the bodies of the [useMemo]
    calls, as functions of their dependencies.

    Conventions of the embedding:
    - epoch-millisecond times and the timeline cursor are [Z] (JS numbers
      holding integers);
    - magnitudes and coordinates are rationals [Q]; the statements about
      them are non-strict order statements, which rounding to doubles
      keeps;
    - the text the code inspects (the place and the query) is a sequence
      of UTF-16 code units; [trim] removes exactly the code units
      ECMAScript calls white space or line terminators, and
      [String.prototype.toLowerCase] is a parameter of the pipeline: what
      is proved holds for whatever case mapping the platform implements;
    - [undefined] and [null] are [None];
    - a block of JavaScript that can throw yields a [Completion]. *)

From Stdlib Require Import ZArith NArith QArith Lqa List String Ascii Bool Lia.
From Stdlib Require Import Permutation Sorted.
Import ListNotations.

Local Open Scope string_scope.
Local Open Scope list_scope.
Local Open Scope Z_scope.

(** ** Completions *)

(** A block of statements either completes normally or throws. *)
Inductive Completion (A : Type) : Type :=
| Normal (a : A)
| Thrown.

Arguments Normal {A} a.
Arguments Thrown {A}.

Definition bindC {A B : Type} (c : Completion A) (k : A -> Completion B)
    : Completion B :=
  match c with
  | Normal a => k a
  | Thrown => Thrown
  end.

Declare Scope compl_scope.
Delimit Scope compl_scope with compl.
Notation "x <- c ;; k" := (bindC c (fun x => k))
  (at level 61, c at next level, right associativity) : compl_scope.

(** [a.map(f)] with a callback that can throw: the first throw ends it. *)
Fixpoint mapC {A B : Type} (f : A -> Completion B) (a : list A)
    : Completion (list B) :=
  match a with
  | [] => Normal []
  | x :: a' => (y <- f x ;; ys <- mapC f a' ;; Normal (y :: ys))%compl
  end.

(** ** The JavaScript built-ins the component calls *)

Module JS.

(** A string: its UTF-16 code units. *)
Definition JsString : Type := list N.

(** A string literal of ASCII characters. *)
Definition str (s : string) : JsString :=
  map N_of_ascii (list_ascii_of_string s).

(** [a[i]]: [undefined] outside [0 <= i < a.length]. *)
Definition index {A : Type} (a : list A) (i : Z) : option A :=
  if i <? 0 then None else nth_error a (Z.to_nat i).

(** [a.length] as a JS number. *)
Definition length {A : Type} (a : list A) : Z := Z.of_nat (List.length a).

(** [x <= cutoff] where [cutoff] may be [undefined]: the comparison with
    [undefined] converts it to NaN and is false. *)
Definition le (x : Z) (cutoff : option Z) : bool :=
  match cutoff with
  | Some c => x <=? c
  | None => false
  end.

(** [v || (empty string)] for an optional string (the empty string is
    falsy too and yields the same result). *)
Definition orEmpty (v : option JsString) : JsString :=
  match v with
  | Some s => s
  | None => []
  end.

(** The code units [trim] removes: WhiteSpace (TAB, VT, FF, SP, NBSP,
    ZWNBSP and the space separators U+1680, U+2000-U+200A, U+202F,
    U+205F, U+3000) and LineTerminator (LF, CR, LS, PS). *)
Definition isSpace (c : N) : bool :=
  (((9 <=? c) && (c <=? 13))
   || (c =? 32) || (c =? 160) || (c =? 5760)
   || ((8192 <=? c) && (c <=? 8202))
   || (c =? 8232) || (c =? 8233) || (c =? 8239) || (c =? 8287)
   || (c =? 12288) || (c =? 65279))%N.

Fixpoint trimStart (s : JsString) : JsString :=
  match s with
  | [] => []
  | c :: s' => if isSpace c then trimStart s' else s
  end.

Fixpoint trimEnd (s : JsString) : JsString :=
  match s with
  | [] => []
  | c :: s' =>
      match trimEnd s' with
      | [] => if isSpace c then [] else [c]
      | t => c :: t
      end
  end.

(** [s.trim()]. *)
Definition trim (s : JsString) : JsString := trimEnd (trimStart s).

(** Truthiness of a string: only the empty string is falsy. *)
Definition truthy (s : JsString) : bool :=
  match s with
  | [] => false
  | _ :: _ => true
  end.

(** [s.startsWith(q)]. *)
Fixpoint startsWith (s q : JsString) : bool :=
  match q, s with
  | [], _ => true
  | _ :: _, [] => false
  | c :: q', d :: s' => (c =? d)%N && startsWith s' q'
  end.

(** [s.includes(q)]: [q] occurs in [s] at some offset. *)
Fixpoint includes (s q : JsString) : bool :=
  startsWith s q
  || match s with
     | [] => false
     | _ :: s' => includes s' q
     end.

(** [Array.prototype.sort(cmp)] is a stable sort: an element moves behind
    another one only when the comparator is positive on the pair.  The
    model inserts each element in front of the sorted rest of the array;
    [JSFacts.stable_sort_unique] shows that for a comparator [key a - key b]
    every stable sort returns this array. *)
Section Sort.

Context {A : Type} (cmp : A -> A -> Z).

Fixpoint insert (x : A) (l : list A) : list A :=
  match l with
  | [] => [x]
  | y :: l' => if cmp x y <=? 0 then x :: l else y :: insert x l'
  end.

Fixpoint sort (l : list A) : list A :=
  match l with
  | [] => []
  | x :: l' => insert x (sort l')
  end.

End Sort.

(** The same sort with a comparator that can throw: the throw ends the
    sort.  An array of fewer than two elements is never compared. *)
Section SortThrowing.

Context {A : Type} (cmp : A -> A -> Completion Z).

Fixpoint insertC (x : A) (l : list A) : Completion (list A) :=
  match l with
  | [] => Normal [x]
  | y :: l' =>
      (c <- cmp x y ;;
       if c <=? 0 then Normal (x :: l)
       else r <- insertC x l' ;; Normal (y :: r))%compl
  end.

Fixpoint sortC (l : list A) : Completion (list A) :=
  match l with
  | [] => Normal []
  | x :: l' => (s <- sortC l' ;; insertC x s)%compl
  end.

End SortThrowing.

(** [Math.max] on two numbers. *)
Definition max (a b : Q) : Q := if Qle_bool a b then b else a.

(** [.filter(Boolean)] on an array whose entries are [null] or an object:
    the objects are truthy and stay. *)
Fixpoint filterBoolean {A : Type} (a : list (option A)) : list A :=
  match a with
  | [] => []
  | Some x :: a' => x :: filterBoolean a'
  | None :: a' => filterBoolean a'
  end.

End JS.

(** ** Data model: one feature of the GeoJSON feed *)

(** A JSON value as far as [typeof] tells them apart. *)
Inductive JsValue : Type :=
| JNumber (q : Q)
| JString (s : JS.JsString)
| JBool (b : bool)
| JNull
| JObject.

Definition isNumber (v : option JsValue) : bool :=
  match v with
  | Some (JNumber _) => true
  | _ => false
  end.

(** The value of [geometry.coordinates]. *)
Inductive Coordinates : Type :=
| CoordsFalsy                      (* absent, null, false, 0 or the empty string *)
| CoordsArray (cs : list JsValue)  (* an array *)
| CoordsString (s : JS.JsString)   (* a non-empty string: iterable *)
| CoordsNotIterable.               (* true, a non-zero number or an object *)

Record Properties : Type := mkProperties {
  mag : option Q;
  place : option JS.JsString;
  time : Z;
  url : option string
}.

Record Geometry : Type := mkGeometry {
  coordinates : Coordinates
}.

Record Feature : Type := mkFeature {
  id : string;
  geometry : option Geometry;
  properties : Properties
}.

(** An element of the [features] array as the feed delivers it: a feature,
    [null], or an object without [properties]. *)
Inductive FeedItem : Type :=
| Item (f : Feature)
| ItemNull
| ItemBare.

(** ** Timeline index (App.jsx, lines 118-124) *)

(** [[...features].sort((a, b) => a.properties.time - b.properties.time)] *)
Definition sorted (features : list Feature) : list Feature :=
  JS.sort (fun a b => time (properties a) - time (properties b)) features.

(** [sorted.map((f) => f.properties.time)] *)
Definition times (sorted : list Feature) : list Z :=
  map (fun f => time (properties f)) sorted.

(** [f.properties.time] on an element of the feed: reading [properties]
    of [null], or [time] of [undefined], throws a TypeError. *)
Definition itemTime (x : FeedItem) : Completion Z :=
  match x with
  | Item f => Normal (time (properties f))
  | ItemNull => Thrown
  | ItemBare => Thrown
  end.

(** The comparator of [sorted] on elements of the feed. *)
Definition compareItems (a b : FeedItem) : Completion Z :=
  (ta <- itemTime a ;; tb <- itemTime b ;; Normal (ta - tb))%compl.

(** [sorted] and then [times], as the render computes them from the
    stored array. *)
Definition renderTimes (features : list FeedItem) : Completion (list Z) :=
  (s <- JS.sortC compareItems features ;; mapC itemTime s)%compl.

(** ** Filter pipeline (App.jsx, lines 153-165) *)

(** [toLowerCase] is [String.prototype.toLowerCase]. *)
Definition filtered (toLowerCase : JS.JsString -> JS.JsString)
    (sorted : list Feature) (textFilter : JS.JsString)
    (times : list Z) (timeIndex : Z) : list Feature :=
  let base := sorted in
  let base :=
    if JS.truthy (JS.trim textFilter) then
      let q := toLowerCase textFilter in
      filter
        (fun f => JS.includes (toLowerCase (JS.orEmpty (place (properties f)))) q)
        base
    else base in
  let base :=
    if JS.length times >? 0 then
      let cutoff := JS.index times timeIndex in
      filter (fun f => JS.le (time (properties f)) cutoff) base
    else base in
  base.

(** ** Render surface (App.jsx, lines 30-42, 167-178 and 293-331) *)

Definition magnitudeColor (m : Q) : string :=
  if Qle_bool 7 m then "#7f0000"
  else if Qle_bool 6 m then "#b30000"
  else if Qle_bool 5 m then "#e34a33"
  else if Qle_bool 4 m then "#fc8d59"
  else if Qle_bool 3 m then "#fdbb84"
  else if Qle_bool 2 m then "#fdd49e"
  else "#fee8c8".

(** [Math.max(3, Math.pow(m + 1, 2))], in exact arithmetic; only non-strict
    order statements are made about it, which rounding to doubles keeps. *)
Definition magToRadius (m : Q) : Q :=
  JS.max 3 ((m + 1) * (m + 1))%Q.

(** [const [lng, lat] = f.geometry?.coordinates || []]: the values the
    destructuring iterates over.  A falsy value gives way to the empty
    array, a string yields its characters, and a truthy value that is not
    iterable makes the destructuring throw a TypeError. *)
Definition destructure (f : Feature) : Completion (list JsValue) :=
  match geometry f with
  | Some g =>
      match coordinates g with
      | CoordsFalsy => Normal []
      | CoordsArray cs => Normal cs
      | CoordsString s => Normal (map (fun c => JString [c]) s)
      | CoordsNotIterable => Thrown
      end
  | None => Normal []
  end.

(** [props.mag ?? 0] *)
Definition magOrZero (f : Feature) : Q :=
  match mag (properties f) with
  | Some m => m
  | None => 0%Q
  end.

(** A heat point is the array [[lat, lng, intensity]]. *)
Definition HeatPoint : Type := (Q * Q * Q)%type.

(** The callback of [filtered.map] in [heatPoints]: [null] unless both
    [typeof lat] and [typeof lng] are ["number"]. *)
Definition heatPoint (f : Feature) : Completion (option HeatPoint) :=
  (cs <- destructure f ;;
   let lng := nth_error cs 0 in
   let lat := nth_error cs 1 in
   let m := magOrZero f in
   Normal
     match lat, lng with
     | Some (JNumber lat), Some (JNumber lng) =>
         Some (lat, lng, JS.max (1 # 10) m)
     | _, _ => None
     end)%compl.

Definition heatPoints (filtered : list Feature) : Completion (list HeatPoint) :=
  (ps <- mapC heatPoint filtered ;; Normal (JS.filterBoolean ps))%compl.

Record CircleMarker : Type := mkCircleMarker {
  key : string;
  center : Q * Q;
  radius : Q;
  color : string;
  fillColor : string
}.

(** The callback of [filtered.map] in circles mode: [null] or a marker. *)
Definition circleMarker (f : Feature) : Completion (option CircleMarker) :=
  (cs <- destructure f ;;
   let lng := nth_error cs 0 in
   let lat := nth_error cs 1 in
   let m := magOrZero f in
   Normal
     match lat, lng with
     | Some (JNumber lat), Some (JNumber lng) =>
         Some (mkCircleMarker (id f) (lat, lng) (magToRadius m)
                 (magnitudeColor m) (magnitudeColor m))
     | _, _ => None
     end)%compl.

(** The children of the layer group in circles mode; React draws nothing
    for a [null] child, so the markers on the map are the non-null ones. *)
Definition circleMarkers (filtered : list Feature)
    : Completion (list (option CircleMarker)) :=
  mapC circleMarker filtered.

Definition drawnMarkers (filtered : list Feature) : Completion (list CircleMarker) :=
  (ms <- circleMarkers filtered ;; Normal (JS.filterBoolean ms))%compl.

(** ** Component state and the handlers that write it *)

(** The hook values the timeline, the fetch and the playback touch, for a
    store of elements of type [E].  [featuresId] stands for the identity
    of the [features] array: every [setFeatures] call of the component
    stores a fresh array, and the dependency lists of [useMemo] and
    [useEffect] compare by identity.  [interval] tells whether the timer
    of the auto-play effect is armed. *)
Record AppStateOf (E : Type) : Type := mkAppState {
  features : list E;
  featuresId : nat;
  timeIndex : Z;
  isPlaying : bool;
  querying : bool;
  interval : bool
}.

Arguments mkAppState {E} _ _ _ _ _ _.
Arguments features {E} _.
Arguments featuresId {E} _.
Arguments timeIndex {E} _.
Arguments isPlaying {E} _.
Arguments querying {E} _.
Arguments interval {E} _.

(** The state of a component whose store holds features. *)
Definition AppState : Type := AppStateOf Feature.

Definition setFeatures {E : Type} (v : list E) (st : AppStateOf E) : AppStateOf E :=
  mkAppState v (S (featuresId st)) (timeIndex st) (isPlaying st) (querying st)
    (interval st).

Definition setTimeIndex {E : Type} (v : Z) (st : AppStateOf E) : AppStateOf E :=
  mkAppState (features st) (featuresId st) v (isPlaying st) (querying st)
    (interval st).

Definition setIsPlaying {E : Type} (v : bool) (st : AppStateOf E) : AppStateOf E :=
  mkAppState (features st) (featuresId st) (timeIndex st) v (querying st)
    (interval st).

Definition setQuerying {E : Type} (v : bool) (st : AppStateOf E) : AppStateOf E :=
  mkAppState (features st) (featuresId st) (timeIndex st) (isPlaying st) v
    (interval st).

Definition withInterval {E : Type} (v : bool) (st : AppStateOf E) : AppStateOf E :=
  mkAppState (features st) (featuresId st) (timeIndex st) (isPlaying st)
    (querying st) v.

(** The timestamps of the current state, [times] of [sorted] of [features]. *)
Definition timesOf (st : AppState) : list Z := times (sorted (features st)).

(** [handlePlayPause] (lines 83-89). *)
Definition handlePlayPause (st : AppState) : AppState :=
  let st' := if negb (isPlaying st) then setTimeIndex 0 st else st in
  setIsPlaying (negb (isPlaying st)) st'.

(** The effect of lines 126-130, run when [times] changed. *)
Definition snapEffect (st : AppState) : AppState :=
  if JS.length (timesOf st) >? 0
  then setTimeIndex (JS.length (timesOf st) - 1) st
  else st.

(** The auto-play effect (lines 136-151), run when [isPlaying] or
    [times.length] changed: the clean-up of the previous run clears its
    timer, and a timer is armed when playing. *)
Definition autoPlayEffect (st : AppState) : AppState :=
  withInterval (isPlaying st) st.

(** The delay passed to [setInterval], in milliseconds. *)
Definition intervalMs : Z := 500.

(** What one period of [intervalMs] milliseconds brings: when the timer is
    armed it fires once, running the updater passed to [setTimeIndex];
    when it is not, nothing runs. *)
Definition tick (st : AppState) : AppState :=
  if interval st then
    let prev := timeIndex st in
    if prev <? JS.length (timesOf st) - 1
    then setTimeIndex (prev + 1) st
    else withInterval false st
  else st.

(** The effects React runs after a commit that took the state from [prev]
    to [cur], in the order the component declares them: the snap effect
    when [times] is a new array, the auto-play effect when [isPlaying] or
    [times.length] differs. *)
Definition commit (prev cur : AppState) : AppState :=
  let cur1 :=
    if Nat.eqb (featuresId prev) (featuresId cur) then cur else snapEffect cur in
  if Bool.eqb (isPlaying prev) (isPlaying cur)
     && (JS.length (timesOf prev) =? JS.length (timesOf cur))
  then cur1
  else autoPlayEffect cur1.

(** A click on the play/pause button, with the effects of its commit. *)
Definition clickPlayPause (st : AppState) : AppState :=
  commit st (handlePlayPause st).

(** ** The fetch effect (App.jsx, lines 91-115) *)

(** Statements read and write the component state and may throw. *)
Definition EffOf (E A : Type) : Type :=
  AppStateOf E -> Completion A * AppStateOf E.

Definition Eff : Type -> Type := EffOf Feature.

Definition ret {E A : Type} (a : A) : EffOf E A := fun st => (Normal a, st).

Definition throw {E A : Type} : EffOf E A := fun st => (Thrown, st).

Definition bind {E A B : Type} (c : EffOf E A) (k : A -> EffOf E B) : EffOf E B :=
  fun st =>
    match c st with
    | (Normal a, st') => k a st'
    | (Thrown, st') => (Thrown, st')
    end.

Definition call {E : Type} (f : AppStateOf E -> AppStateOf E) : EffOf E unit :=
  fun st => (Normal tt, f st).

Declare Scope eff_scope.
Delimit Scope eff_scope with eff.
Notation "x <- c ;; k" := (bind c (fun x => k))
  (at level 61, c at next level, right associativity) : eff_scope.
Notation "c ;; k" := (bind c (fun _ => k))
  (at level 61, right associativity) : eff_scope.

(** [try { body } catch (e) { handler } finally { finalizer }] *)
Definition tryCatchFinally {E : Type} (body handler finalizer : EffOf E unit)
    : EffOf E unit :=
  fun st =>
    let (c1, st1) :=
      match body st with
      | (Normal _, st') => (Normal tt, st')
      | (Thrown, st') => handler st'
      end in
    match finalizer st1 with
    | (Normal _, st2) => (c1, st2)
    | (Thrown, st2) => (Thrown, st2)
    end.

(** What [await res.json()] resolved to: [null], on which reading
    [data.features] throws, or a value whose [features] property is an
    array ([Some], whatever its elements are) or anything else ([None]). *)
Inductive JsonOf (E : Type) : Type :=
| JsonNull
| JsonValue (featuresField : option (list E)).

Arguments JsonNull {E}.
Arguments JsonValue {E} featuresField.

(** How the awaited part of [run] went. *)
Inductive ResponseOf (E : Type) : Type :=
| UrlThrows        (* makeUsgsUrl throws: toISOString of an invalid date *)
| FetchRejects     (* network error *)
| JsonRejects      (* the body is not JSON *)
| Resolved (data : JsonOf E).

Arguments UrlThrows {E}.
Arguments FetchRejects {E}.
Arguments JsonRejects {E}.
Arguments Resolved {E} data.

(** Responses whose [features] array, if any, holds features. *)
Definition Json : Type := JsonOf Feature.

Definition Response : Type := ResponseOf Feature.

Definition awaitData {E : Type} (r : ResponseOf E) : EffOf E (JsonOf E) :=
  match r with
  | Resolved data => ret data
  | _ => throw
  end.

(** [data.features] *)
Definition readFeatures {E : Type} (data : JsonOf E) : EffOf E (option (list E)) :=
  match data with
  | JsonNull => throw
  | JsonValue field => ret field
  end.

(** [Array.isArray(x) ? x : []] *)
Definition arrayOrEmpty {E : Type} (field : option (list E)) : list E :=
  match field with
  | Some fs => fs
  | None => []
  end.

(** The first statement of [run], executed when the effect starts. *)
Definition runStart {E : Type} (st : AppStateOf E) : AppStateOf E :=
  setQuerying true st.

(** The rest of [run], executed when the awaited response [r] is there;
    [cancelled] is the value of the effect's variable at that moment.
    The elements of a [features] array are stored unseen. *)
Definition run {E : Type} (cancelled : bool) (r : ResponseOf E) : EffOf E unit :=
  tryCatchFinally
    (data <- awaitData r ;;
     if negb cancelled then
       field <- readFeatures data ;;
       call (setFeatures (arrayOrEmpty field)) ;;
       call (setTimeIndex 0)
     else ret tt)%eff
    (if negb cancelled then call (setFeatures []) else ret tt)
    (if negb cancelled then call (setQuerying false) else ret tt).

(** The component together with the [cancelled] variables of the runs of
    the fetch effect so far, the current run first. *)
Record World : Type := mkWorld {
  app : AppState;
  requests : list bool
}.

(** The clean-up of the current run: [cancelled = true]. *)
Definition cleanup (rs : list bool) : list bool :=
  match rs with
  | [] => []
  | _ :: rs' => true :: rs'
  end.

(** The variable of the [n]-th run (counted from 0, in issue order). *)
Definition cancelledOf (w : World) (n : nat) : option bool :=
  nth_error (rev (requests w)) n.

Inductive Event : Type :=
| ParamsChanged                       (* start, end, minMag or limit changed *)
| Responded (n : nat) (r : Response). (* the fetch of run [n] settled *)

Definition step (w : World) (e : Event) : World :=
  match e with
  | ParamsChanged =>
      mkWorld (runStart (app w)) (false :: cleanup (requests w))
  | Responded n r =>
      match cancelledOf w n with
      | Some cancelled =>
          mkWorld (commit (app w) (snd (run cancelled r (app w)))) (requests w)
      | None => w
      end
  end.

Definition steps (w : World) (es : list Event) : World :=
  fold_left step es w.

(** The hook values of the first render. *)
Definition initialState : AppState :=
  mkAppState [] 0 0 false false false.
(** * Further parts of the component *)

(** ** Timeline controls (App.jsx, lines 341-361) *)

(** [times.length > 0 && (...)]: the controls are rendered. *)
Definition timelineShown (st : AppState) : bool :=
  JS.length (timesOf st) >? 0.

(** The [max] attribute of the range input. *)
Definition sliderMax (st : AppState) : Z := JS.length (timesOf st) - 1.

(** The timestamp the label formats, [times[timeIndex]]. *)
Definition labelTime (st : AppState) : option Z :=
  JS.index (timesOf st) (timeIndex st).

(** [onChange] of the range input, with the number the input reports. *)
Definition onScrub (v : Z) (st : AppState) : AppState := setTimeIndex v st.

(** What the user, the timer and the network can do to the component. *)
Inductive Action : Type :=
| Fetch (e : Event)   (* a parameter change or a settled fetch *)
| PlayPause           (* a click on the play/pause button *)
| TimerFires          (* one period of the auto-play timer *)
| Scrub (v : Z).      (* the range input reports the value [v] *)

Definition act (w : World) (a : Action) : World :=
  match a with
  | Fetch e => step w e
  | PlayPause => mkWorld (clickPlayPause (app w)) (requests w)
  | TimerFires => mkWorld (tick (app w)) (requests w)
  | Scrub v => mkWorld (onScrub v (app w)) (requests w)
  end.

(** A range input only reports values between its [min] and [max], and it
    is there only while the controls are rendered. *)
Definition Possible (w : World) (a : Action) : Prop :=
  match a with
  | Scrub v => timelineShown (app w) = true /\ 0 <= v <= sliderMax (app w)
  | _ => True
  end.

(** The worlds the component can be in. *)
Inductive Reachable : World -> Prop :=
| Reachable_first : Reachable (mkWorld initialState [])
| Reachable_act (w : World) (a : Action) :
    Reachable w -> Possible w a -> Reachable (act w a).

(** The cursor is on the slider whenever the slider is there. *)
Definition CursorOk (st : AppState) : Prop :=
  timelineShown st = true -> 0 <= timeIndex st <= sliderMax st.

(** ** HeatmapLayer (App.jsx, lines 44-62, and the stand-alone component) *)

(** The options object passed to [heatLayer]; [max] may be left out. *)
Record HeatOptions : Type := mkHeatOptions {
  optRadius : Z;
  optBlur : Z;
  optMaxZoom : Z;
  optMax : option Z
}.

(** A heat layer object; [layerId] stands for its identity. *)
Record HeatLayer : Type := mkHeatLayer {
  layerId : nat;
  latlngs : list HeatPoint;
  layerOptions : HeatOptions
}.

(** The Leaflet map as far as its layers go: the layers it holds and the
    number of layer objects created so far (the identity of the next). *)
Record LeafletMap : Type := mkLeafletMap {
  layers : list HeatLayer;
  created : nat
}.

(** [L.heatLayer(points, options)]: a fresh layer object. *)
Definition heatLayer (points : list HeatPoint) (opts : HeatOptions)
    (m : LeafletMap) : HeatLayer * LeafletMap :=
  (mkHeatLayer (created m) points opts,
   mkLeafletMap (layers m) (S (created m))).

(** [layer.addTo(map)] *)
Definition addTo (layer : HeatLayer) (m : LeafletMap) : LeafletMap :=
  mkLeafletMap (layer :: layers m) (created m).

(** [map.removeLayer(layer)] *)
Definition removeLayer (i : nat) (m : LeafletMap) : LeafletMap :=
  mkLeafletMap (filter (fun l => negb (Nat.eqb (layerId l) i)) (layers m))
    (created m).

(** The map of [useMap()] and the layer that the clean-up returned by the
    last run of the effect removes, if that run returned one. *)
Record MapWorld : Type := mkMapWorld {
  leaflet : option LeafletMap;
  pending : option nat
}.

(** The clean-up function [() => map.removeLayer(layer)]. *)
Definition runCleanup (w : MapWorld) : option LeafletMap :=
  match pending w, leaflet w with
  | Some i, Some m => Some (removeLayer i m)
  | _, _ => leaflet w
  end.

Definition appHeatOptions : HeatOptions := mkHeatOptions 35 13 17 (Some 8).

(** The effect of [HeatmapLayer] in App.jsx, on the map left by the
    clean-up of the previous run. *)
Definition heatmapEffect (map : option LeafletMap) (points : list HeatPoint)
    : MapWorld :=
  match map with
  | None => mkMapWorld None None
  | Some m =>
      let (layer, m1) := heatLayer points appHeatOptions m in
      mkMapWorld (Some (addTo layer m1)) (Some (layerId layer))
  end.

(** A render with a new [points] array: clean-up, then the effect. *)
Definition renderHeatmap (points : list HeatPoint) (w : MapWorld) : MapWorld :=
  heatmapEffect (runCleanup w) points.

(** The component is unmounted (the view leaves heat mode). *)
Definition unmountHeatmap (w : MapWorld) : MapWorld :=
  mkMapWorld (runCleanup w) None.

Definition standaloneHeatOptions : HeatOptions := mkHeatOptions 15 25 8 None.

(** The effect of the stand-alone component: nothing is done, and no
    clean-up is returned, when [points] is absent or empty. *)
Definition standaloneEffect (map : option LeafletMap)
    (points : option (list HeatPoint)) : MapWorld :=
  match map with
  | None => mkMapWorld None None
  | Some m =>
      match points with
      | None => mkMapWorld map None
      | Some [] => mkMapWorld map None
      | Some ps =>
          let (layer, m1) := heatLayer ps standaloneHeatOptions m in
          mkMapWorld (Some (addTo layer m1)) (Some (layerId layer))
      end
  end.

Definition renderStandalone (points : option (list HeatPoint)) (w : MapWorld)
    : MapWorld :=
  standaloneEffect (runCleanup w) points.

(** The heat layers of a world's map. *)
Definition layersOf (w : MapWorld) : list HeatLayer :=
  match leaflet w with
  | Some m => layers m
  | None => []
  end.

(** A map none of whose layers has the identity of a layer still to be
    created. *)
Definition MapOk (m : LeafletMap) : Prop :=
  Forall (fun l => (layerId l < created m)%nat) (layers m).

(** Successive renders, each with a new [points] array. *)
Definition renders (ps : list (list HeatPoint)) (w : MapWorld) : MapWorld :=
  fold_left (fun w' p => renderHeatmap p w') ps w.

Definition rendersStandalone (ps : list (option (list HeatPoint)))
    (w : MapWorld) : MapWorld :=
  fold_left (fun w' p => renderStandalone p w') ps w.

(** The map holds the layers of [m0] and at most one more, the layer of
    the component, which is then the one its clean-up removes. *)
Definition HeatInv (m0 : LeafletMap) (w : MapWorld) : Prop :=
  match leaflet w with
  | None => False
  | Some m =>
      (created m0 <= created m)%nat
      /\ match pending w with
         | None => layers m = layers m0
         | Some i =>
             exists own : HeatLayer,
               layerId own = i
               /\ layers m = own :: layers m0
               /\ (created m0 <= i < created m)%nat
         end
  end.

(** * Vocabulary of the specification *)

(** The white-space code units, one by one. *)
Definition whiteSpace : list N :=
  [9; 10; 11; 12; 13; 32; 160; 5760;
   8192; 8193; 8194; 8195; 8196; 8197; 8198; 8199; 8200; 8201; 8202;
   8232; 8233; 8239; 8287; 12288; 65279]%N.

(** A string of white space only (the empty string included). *)
Definition blank (s : JS.JsString) : bool :=
  forallb (fun c => existsb (N.eqb c) whiteSpace) s.

Definition cmpKey {A : Type} (key : A -> Z) (a b : A) : Z := key a - key b.

Definition leKey {A : Type} (key : A -> Z) (a b : A) : Prop := key a <= key b.

Definition timeOf (f : Feature) : Z := time (properties f).

(** The place of an event as text; an absent place is the empty string. *)
Definition placeText (f : Feature) : JS.JsString :=
  match place (properties f) with
  | Some s => s
  | None => []
  end.

(** The query occurs in the place, both read in lower case. *)
Definition MatchesPlace (lower : JS.JsString -> JS.JsString)
    (query : JS.JsString) (f : Feature) : Prop :=
  exists a b : JS.JsString, lower (placeText f) = a ++ lower query ++ b.

(** [c] is the entry of [ts] at position [i]. *)
Definition EntryAt (ts : list Z) (i : Z) (c : Z) : Prop :=
  0 <= i /\ nth_error ts (Z.to_nat i) = Some c.

(** The event is at or before the cut-off [ts[i]]; no event is when there
    is no such entry. *)
Definition AtOrBefore (ts : list Z) (i : Z) (f : Feature) : Prop :=
  exists c : Z, EntryAt ts i c /\ timeOf f <= c.

(** The events the filter pipeline is said to keep. *)
Definition Visible (lower : JS.JsString -> JS.JsString)
    (query : JS.JsString) (ts : list Z) (i : Z) (f : Feature) : Prop :=
  MatchesPlace lower query f /\ AtOrBefore ts i f.

(** The same with a blank query (empty or white space only) matching every
    event. *)
Definition VisibleOrBlank (lower : JS.JsString -> JS.JsString)
    (query : JS.JsString) (ts : list Z) (i : Z) (f : Feature) : Prop :=
  (blank query = true \/ MatchesPlace lower query f) /\ AtOrBefore ts i f.

(** [out] is the subsequence of [all] made of exactly the elements that
    satisfy [P]. *)
Definition SubsequenceOf {A : Type} (P : A -> Prop) (all out : list A) : Prop :=
  exists keep : A -> bool,
    (forall x, keep x = true <-> P x) /\ out = filter keep all.

(** The store a live response leaves behind. *)
Definition storeAfter {E : Type} (r : ResponseOf E) : list E :=
  match r with
  | Resolved (JsonValue (Some fs)) => fs
  | _ => []
  end.

(** A fetch failure the code detects: anything but a response whose
    [features] is an array. *)
Definition FetchFailed {E : Type} (r : ResponseOf E) : Prop :=
  match r with
  | Resolved (JsonValue (Some _)) => False
  | _ => True
  end.

(** Every run but the current one has been cleaned up, and the current one
    has not. *)
Definition OnlyCurrentLive (rs : list bool) : Prop :=
  match rs with
  | [] => True
  | c :: rs' => c = false /\ Forall (fun c' => c' = true) rs'
  end.

(** [n] periods of the timer. *)
Definition ticks (n : nat) (st : AppState) : AppState := Nat.iter n tick st.

(** The cursor after 0, 1, ..., [n] periods. *)
Definition cursorTrace (n : nat) (st : AppState) : list Z :=
  map (fun k => timeIndex (ticks k st)) (seq 0 (S n)).

(** The state [ms] milliseconds later, when nothing but the timer acts:
    one period for every full [intervalMs]. *)
Definition afterMs (ms : Z) (st : AppState) : AppState :=
  ticks (Z.to_nat (ms / intervalMs)) st.

(** The position of an event whose coordinates are an array that starts
    with two numbers, longitude first. *)
Definition numericPosition (f : Feature) : option (Q * Q) :=
  match geometry f with
  | Some (mkGeometry (CoordsArray (JNumber lng :: JNumber lat :: _))) =>
      Some (lat, lng)
  | _ => None
  end.

Definition hasPosition (f : Feature) : bool :=
  match numericPosition f with
  | Some _ => true
  | None => false
  end.

(** The coordinates of the event are absent or can be iterated over. *)
Definition Iterable (f : Feature) : Prop :=
  match geometry f with
  | Some (mkGeometry CoordsNotIterable) => False
  | _ => True
  end.

(** The positions of the events that have one, in order. *)
Fixpoint positions (l : list Feature) : list (Q * Q) :=
  match l with
  | [] => []
  | f :: l' =>
      match numericPosition f with
      | Some p => p :: positions l'
      | None => positions l'
      end
  end.

Definition thresholds : list Q := [2; 3; 4; 5; 6; 7]%Q.

(** The band of a magnitude: how many thresholds it has reached. *)
Definition band (m : Q) : nat :=
  List.length (filter (fun t => Qle_bool t m) thresholds).

(** The text stage of the pipeline alone. *)
Definition textMatches (lower : JS.JsString -> JS.JsString)
    (q : JS.JsString) (f : Feature) : bool :=
  JS.includes (lower (JS.orEmpty (place (properties f)))) (lower q).

Definition latLngOfPoint (p : HeatPoint) : Q * Q := fst p.

Definition intensity (p : HeatPoint) : Q := snd p.

(** ** Sample data *)

(** Lower-casing of the ASCII letters, which [toLowerCase] does on ASCII
    text; the examples run the pipeline with it. *)
Definition asciiLower (s : JS.JsString) : JS.JsString :=
  map (fun c => if ((65 <=? c) && (c <=? 90))%N then (c + 32)%N else c) s.

Definition quake (name : string) (loc : option string) (t : Z) : Feature :=
  mkFeature name
    (Some (mkGeometry
             (CoordsArray [JNumber (139 # 1); JNumber (35 # 1); JNumber (10 # 1)])))
    (mkProperties (Some (45 # 10)) (option_map JS.str loc) t None).

Definition tokyo : Feature := quake "us1" (Some "Near Tokyo, Japan") 100.

Definition alaska : Feature := quake "ak2" (Some "Alaska") 200.

Definition nowhere : Feature := quake "nn3" None 200.

Definition chile : Feature := quake "us4" (Some "Offshore Chile") 300.

(** An event whose latitude is a string. *)
Definition badLatitude : Feature :=
  mkFeature "bad5"
    (Some (mkGeometry
             (CoordsArray [JNumber (10 # 1); JString (JS.str "north"); JNumber (5 # 1)])))
    (mkProperties (Some (6 # 1)) (Some (JS.str "Somewhere")) 150 None).

(** An event whose coordinates are an object. *)
Definition objectCoordinates : Feature :=
  mkFeature "obj6" (Some (mkGeometry CoordsNotIterable))
    (mkProperties (Some (5 # 1)) (Some (JS.str "Elsewhere")) 250 None).

(** * Properties *)

(** ** Facts about the built-ins *)

Module JSFacts.

Lemma index_Some {A : Type} (a : list A) (i : Z) (x : A) :
  JS.index a i = Some x <-> 0 <= i /\ nth_error a (Z.to_nat i) = Some x.
Proof.
  unfold JS.index. destruct (Z.ltb_spec i 0); split.
  - discriminate.
  - intros [Hi _]. lia.
  - auto.
  - tauto.
Qed.

Lemma index_in_range {A : Type} (a : list A) (i : Z) :
  0 <= i < JS.length a -> exists x, JS.index a i = Some x.
Proof.
  unfold JS.length. intros Hi.
  destruct (nth_error a (Z.to_nat i)) as [x|] eqn:E.
  - exists x. apply index_Some. split; [lia | exact E].
  - apply nth_error_None in E. lia.
Qed.

Lemma index_out_of_range {A : Type} (a : list A) (i : Z) :
  JS.length a <= i -> JS.index a i = None.
Proof.
  unfold JS.index, JS.length. intros Hi.
  destruct (i <? 0); [reflexivity |].
  apply nth_error_None. lia.
Qed.

Lemma startsWith_app (s q : JS.JsString) :
  JS.startsWith s q = true <-> exists b, s = q ++ b.
Proof.
  revert s. induction q as [|c q IH]; intros s.
  - split; [intros _; exists s; reflexivity | destruct s; reflexivity].
  - destruct s as [|d s]; simpl.
    + split; [discriminate | intros [b Hb]; discriminate].
    + rewrite andb_true_iff, N.eqb_eq, IH. split.
      * intros [-> [b ->]]. exists b. reflexivity.
      * intros [b Hb]. injection Hb as -> ->. split; [reflexivity | eauto].
Qed.

(** [includes] is the substring relation. *)
Lemma includes_spec (s q : JS.JsString) :
  JS.includes s q = true <-> exists a b, s = a ++ q ++ b.
Proof.
  induction s as [|c s IH].
  - cbn [JS.includes]. rewrite orb_false_r, startsWith_app. split.
    + intros [b Hb]. exists [], b. exact Hb.
    + intros [a [b Hb]]. destruct a; [exists b; exact Hb | discriminate].
  - cbn [JS.includes]. rewrite orb_true_iff, startsWith_app, IH. split.
    + intros [[b Hb] | [a [b Hb]]].
      * exists [], b. exact Hb.
      * exists (c :: a), b. simpl. now rewrite Hb.
    + intros [a [b Hb]]. destruct a as [|d a].
      * left. exists b. exact Hb.
      * right. exists a, b. simpl in Hb. now injection Hb.
Qed.

(** The range tests of [isSpace] pick the white-space code units. *)
Lemma isSpace_whiteSpace (c : N) :
  JS.isSpace c = existsb (N.eqb c) whiteSpace.
Proof.
  apply eq_true_iff_eq. rewrite existsb_exists. unfold JS.isSpace.
  rewrite !orb_true_iff, !andb_true_iff, !N.leb_le, !N.eqb_eq. split.
  - intros H. exists c. rewrite N.eqb_refl. split; [| reflexivity].
    unfold whiteSpace. simpl In. lia.
  - intros [x [Hin Hx]]. apply N.eqb_eq in Hx. subst x.
    unfold whiteSpace in Hin. simpl In in Hin. lia.
Qed.

Lemma trimEnd_empty (s : JS.JsString) :
  JS.trimEnd s = [] <-> forallb JS.isSpace s = true.
Proof.
  induction s as [|c s IH]; simpl.
  - tauto.
  - destruct (JS.trimEnd s) eqn:E, (JS.isSpace c); simpl;
      split; try discriminate; try tauto.
    intros Hb. apply IH in Hb. discriminate.
Qed.

Lemma allSpace_trimStart (s : JS.JsString) :
  forallb JS.isSpace (JS.trimStart s) = forallb JS.isSpace s.
Proof.
  induction s as [|c s IH]; simpl; [reflexivity |].
  destruct (JS.isSpace c) eqn:E; simpl; [exact IH | now rewrite E].
Qed.

Lemma blank_allSpace (s : JS.JsString) : blank s = forallb JS.isSpace s.
Proof.
  unfold blank. induction s as [|c s IH]; [reflexivity |].
  cbn [forallb]. now rewrite IH, isSpace_whiteSpace.
Qed.

(** [textFilter.trim()] is falsy exactly for a blank query. *)
Lemma truthy_trim (s : JS.JsString) :
  JS.truthy (JS.trim s) = negb (blank s).
Proof.
  rewrite blank_allSpace. unfold JS.trim. rewrite <- (allSpace_trimStart s).
  destruct (JS.trimEnd (JS.trimStart s)) eqn:E; simpl.
  - apply trimEnd_empty in E. now rewrite E.
  - destruct (forallb JS.isSpace (JS.trimStart s)) eqn:B; [| reflexivity].
    apply trimEnd_empty in B. congruence.
Qed.

Lemma filterBoolean_app {A : Type} (a b : list (option A)) :
  JS.filterBoolean (a ++ b) = JS.filterBoolean a ++ JS.filterBoolean b.
Proof.
  induction a as [|[x|] a IH]; simpl; [reflexivity | now rewrite IH | exact IH].
Qed.

(** *** Sorting by a numeric key with the comparator [key a - key b] *)

Section SortByKey.

Context {A : Type} (key : A -> Z).

Let cmp := cmpKey key.
Let le := leKey key.

Lemma insert_perm (x : A) (l : list A) :
  Permutation (JS.insert cmp x l) (x :: l).
Proof.
  induction l as [|y l IH]; simpl.
  - reflexivity.
  - destruct (cmp x y <=? 0).
    + reflexivity.
    + rewrite IH. apply perm_swap.
Qed.

Lemma sort_perm (l : list A) : Permutation (JS.sort cmp l) l.
Proof.
  induction l as [|x l IH]; simpl.
  - reflexivity.
  - rewrite insert_perm. now constructor.
Qed.

Lemma insert_sorted (x : A) (l : list A) :
  StronglySorted le l -> StronglySorted le (JS.insert cmp x l).
Proof.
  induction 1 as [|y l Hl IH Hy]; simpl.
  - repeat constructor.
  - unfold le, cmp, leKey, cmpKey in *.
    destruct (Z.leb_spec (key x - key y) 0) as [Hxy|Hxy].
    + constructor; [constructor; assumption |].
      constructor; [lia |].
      eapply Forall_impl; [| exact Hy]. simpl. intros z Hz. lia.
    + constructor; [exact IH |].
      eapply Permutation_Forall; [symmetry; apply insert_perm |].
      constructor; [lia | exact Hy].
Qed.

Lemma sort_sorted (l : list A) : StronglySorted le (JS.sort cmp l).
Proof.
  induction l as [|x l IH]; simpl.
  - constructor.
  - now apply insert_sorted.
Qed.

(** Insertion does not reorder the elements of one key. *)
Lemma insert_stable (t : Z) (x : A) (l : list A) :
  filter (fun a => key a =? t) (JS.insert cmp x l)
  = filter (fun a => key a =? t) (x :: l).
Proof.
  induction l as [|y l IH]; [reflexivity |].
  cbn [JS.insert]. unfold cmp, cmpKey in *.
  destruct (Z.leb_spec (key x - key y) 0) as [Hxy|Hxy]; [reflexivity |].
  simpl. rewrite IH. simpl.
  destruct (Z.eqb_spec (key x) t), (Z.eqb_spec (key y) t); try reflexivity.
  lia.
Qed.

Lemma sort_stable (t : Z) (l : list A) :
  filter (fun a => key a =? t) (JS.sort cmp l)
  = filter (fun a => key a =? t) l.
Proof.
  induction l as [|x l IH]; [reflexivity |].
  cbn [JS.sort]. rewrite insert_stable. simpl. now rewrite IH.
Qed.

(** Two arrays sorted by key that agree on the elements of every key, in
    order, are the same array. *)
Lemma sorted_same_keys_eq (l1 l2 : list A) :
  StronglySorted le l1 -> StronglySorted le l2 ->
  (forall t, filter (fun a => key a =? t) l1 = filter (fun a => key a =? t) l2) ->
  l1 = l2.
Proof.
  unfold le, leKey. intros H1. revert l2.
  induction H1 as [|x l1 H1 IH Hx]; intros l2 H2 E.
  - destruct l2 as [|y l2]; [reflexivity |].
    specialize (E (key y)). simpl in E. rewrite Z.eqb_refl in E. discriminate.
  - destruct l2 as [|y l2].
    + specialize (E (key x)). simpl in E. rewrite Z.eqb_refl in E. discriminate.
    + inversion H2 as [|y' l2' H2' Hy]; subst.
      rewrite Forall_forall in Hx, Hy.
      assert (K : key x = key y).
      { destruct (Z.lt_trichotomy (key x) (key y)) as [Hlt|[Heq|Hgt]];
          [exfalso | exact Heq | exfalso].
        - pose proof (E (key x)) as Ex. simpl in Ex. rewrite Z.eqb_refl in Ex.
          assert (In x (filter (fun a => key a =? key x) (y :: l2)))
            by (simpl; rewrite <- Ex; left; reflexivity).
          apply filter_In in H as [[->|Hin] _]; [lia |].
          specialize (Hy x Hin). lia.
        - pose proof (E (key y)) as Ey. simpl in Ey. rewrite Z.eqb_refl in Ey.
          assert (In y (filter (fun a => key a =? key y) (x :: l1)))
            by (simpl; rewrite Ey; left; reflexivity).
          apply filter_In in H as [[->|Hin] _]; [lia |].
          specialize (Hx y Hin). lia. }
      assert (XY : x = y).
      { specialize (E (key x)). simpl in E.
        rewrite <- K, Z.eqb_refl in E. now injection E. }
      subst y. f_equal. apply IH; [exact H2' |].
      intros t. specialize (E t). simpl in E.
      destruct (key x =? t); [now injection E | exact E].
Qed.

(** The stable sort is determined by its contract: any array sorted by
    key that keeps the elements of every key in their original order is
    the result of [JS.sort]. *)
Lemma stable_sort_unique (l l' : list A) :
  StronglySorted le l' ->
  (forall t, filter (fun a => key a =? t) l' = filter (fun a => key a =? t) l) ->
  l' = JS.sort cmp l.
Proof.
  intros Hs Hf. apply sorted_same_keys_eq; [exact Hs | apply sort_sorted |].
  intros t. now rewrite sort_stable.
Qed.

End SortByKey.

(** In a non-decreasing array an earlier entry is at most a later one. *)
Lemma sorted_index_le (a : list Z) (j i : Z) (x y : Z) :
  StronglySorted Z.le a -> j <= i ->
  JS.index a j = Some x -> JS.index a i = Some y -> x <= y.
Proof.
  intros Hs Hji Hx Hy.
  apply index_Some in Hx as [Hj Hx]. apply index_Some in Hy as [_ Hy].
  assert (Hn : (Z.to_nat j <= Z.to_nat i)%nat) by lia.
  clear Hji Hj. revert Hn Hx Hy.
  generalize (Z.to_nat j) (Z.to_nat i). clear j i.
  induction Hs as [|z a Hs IH Hz]; intros j i Hji Hx Hy.
  - destruct j; discriminate.
  - destruct j as [|j], i as [|i]; simpl in *.
    + assert (x = y) by congruence. lia.
    + injection Hx as <-. apply nth_error_In in Hy.
      rewrite Forall_forall in Hz. now apply Hz.
    + lia.
    + eapply IH; [| eassumption | eassumption]. lia.
Qed.

End JSFacts.
(** ** Sorting and filtering *)

Lemma filter_twice {A : Type} (p1 p2 : A -> bool) (l : list A) :
  filter p2 (filter p1 l) = filter (fun x => p1 x && p2 x) l.
Proof.
  induction l as [|x l IH]; simpl; [reflexivity |].
  destruct (p1 x); simpl; [destruct (p2 x) |]; now rewrite IH.
Qed.

Lemma times_sorted (fs : list Feature) : StronglySorted Z.le (times (sorted fs)).
Proof.
  unfold times, sorted.
  pose proof (JSFacts.sort_sorted timeOf fs) as H.
  unfold cmpKey, leKey, timeOf in H.
  induction H as [|f l Hl IH Hf]; simpl; constructor.
  - exact IH.
  - rewrite Forall_map. exact Hf.
Qed.

Lemma le_AtOrBefore (ts : list Z) (i : Z) (f : Feature) :
  JS.le (time (properties f)) (JS.index ts i) = true <-> AtOrBefore ts i f.
Proof.
  unfold AtOrBefore, EntryAt, timeOf.
  destruct (JS.index ts i) as [c|] eqn:E; simpl.
  - apply JSFacts.index_Some in E. rewrite Z.leb_le. split.
    + intros H. exists c. auto.
    + intros [c' [[_ E'] H]]. destruct E as [_ E].
      rewrite E in E'. injection E' as <-. exact H.
  - split; [discriminate |].
    intros [c [E' _]]. apply JSFacts.index_Some in E'. congruence.
Qed.

Lemma orEmpty_placeText (f : Feature) :
  JS.orEmpty (place (properties f)) = placeText f.
Proof. unfold placeText. now destruct (place (properties f)). Qed.

Lemma includes_MatchesPlace (lower : JS.JsString -> JS.JsString)
    (query : JS.JsString) (f : Feature) :
  JS.includes (lower (JS.orEmpty (place (properties f)))) (lower query) = true
  <-> MatchesPlace lower query f.
Proof. rewrite orEmpty_placeText. apply JSFacts.includes_spec. Qed.

(** Times 100, 200, 200, 300 with the cursor on index 2: the events at 100
    and both at 200 are visible, the one at 300 is not; the two events at
    200 keep their feed order. *)
Example cutoff_scenario :
  let s := sorted [chile; alaska; tokyo; nowhere] in
  s = [tokyo; alaska; nowhere; chile]
  /\ times s = [100; 200; 200; 300]
  /\ filtered asciiLower s [] (times s) 2 = [tokyo; alaska; nowhere].
Proof. repeat split. Qed.

(** The query "japan" keeps the Tokyo event only, whatever its case. *)
Example japan_scenario :
  let s := sorted [tokyo; alaska] in
  filtered asciiLower s (JS.str "japan") (times s) 1 = [tokyo]
  /\ filtered asciiLower s (JS.str "JaPaN") (times s) 1 = [tokyo].
Proof. split; reflexivity. Qed.

(** A query of a no-break space (U+00A0) is trimmed to nothing: the text
    stage is skipped and the events stay. *)
Example no_break_space_scenario :
  filtered asciiLower [alaska; nowhere] [160%N] [200; 200] 1 = [alaska; nowhere].
Proof. reflexivity. Qed.

(** C2: for every event collection, [sorted] is a permutation of the
    collection, non-decreasing by time, and events of equal time keep their
    feed order; the time is the only key looked at. *)
Theorem sorted_permutation_nondecreasing_stable (fs : list Feature) :
  Permutation (sorted fs) fs
  /\ StronglySorted (fun a b => timeOf a <= timeOf b) (sorted fs)
  /\ forall t : Z,
       filter (fun f => timeOf f =? t) (sorted fs)
       = filter (fun f => timeOf f =? t) fs.
Proof.
  split; [| split].
  - apply (JSFacts.sort_perm timeOf).
  - apply (JSFacts.sort_sorted timeOf).
  - intros t. apply (JSFacts.sort_stable timeOf).
Qed.

(** C1, as stated, fails on a query of white space only: the pipeline skips
    the text filter for it, while a single space is not a substring of
    the place. *)
Lemma filtered_blank_query_counterexample :
  ~ SubsequenceOf
      (Visible asciiLower (JS.str " ") (times (sorted [alaska])) 0)
      (sorted [alaska])
      (filtered asciiLower (sorted [alaska]) (JS.str " ")
         (times (sorted [alaska])) 0).
Proof.
  intros [keep [Hkeep E]].
  assert (F : filtered asciiLower (sorted [alaska]) (JS.str " ")
                (times (sorted [alaska])) 0 = [alaska])
    by reflexivity.
  assert (S : sorted [alaska] = [alaska]) by reflexivity.
  rewrite F, S in E. simpl in E.
  destruct (keep alaska) eqn:K; [| discriminate].
  apply Hkeep in K. destruct K as [M _].
  apply JSFacts.includes_spec in M. vm_compute in M. discriminate.
Qed.

(** C1 (amended): whatever case mapping [toLowerCase] is, the output of
    the filter pipeline is the subsequence of [sorted], in its order, of
    exactly the events that match the query (a query that is empty or
    white space only matches every event; any other query must occur, in
    lower case and untrimmed, in the lower-cased place, an absent place
    being the empty string) and whose time is at most the cut-off
    [times[timeIndex]]; magnitude and depth play no part. *)
Theorem filtered_visible_subsequence
    (toLowerCase : JS.JsString -> JS.JsString)
    (fs : list Feature) (q : JS.JsString) (i : Z) :
  SubsequenceOf (VisibleOrBlank toLowerCase q (times (sorted fs)) i)
    (sorted fs)
    (filtered toLowerCase (sorted fs) q (times (sorted fs)) i).
Proof.
  generalize (sorted fs) as s. intros s.
  exists (fun f =>
    (blank q
     || JS.includes (toLowerCase (JS.orEmpty (place (properties f))))
          (toLowerCase q))
    && JS.le (time (properties f)) (JS.index (times s) i)).
  split.
  - intros f. unfold VisibleOrBlank.
    rewrite andb_true_iff, orb_true_iff, includes_MatchesPlace, le_AtOrBefore.
    tauto.
  - unfold filtered. rewrite JSFacts.truthy_trim.
    destruct s as [|f s]; [destruct (blank q); reflexivity |].
    replace (JS.length (times (f :: s)) >? 0) with true
      by (unfold JS.length; simpl; symmetry; apply Z.gtb_lt; lia).
    destruct (blank q); cbn [negb orb].
    + reflexivity.
    + apply filter_twice.
Qed.

Lemma filter_none {A : Type} (l : list A) : filter (fun _ => false) l = [].
Proof. induction l; simpl; auto. Qed.

(** C3: for in-range cursors [j < i], the output at [i] holds only events
    at or before [times[i]], and the output at [j] is included in it. *)
Theorem filtered_monotone_in_cursor
    (toLowerCase : JS.JsString -> JS.JsString)
    (fs : list Feature) (q : JS.JsString) (i j : Z) :
  0 <= j -> j < i -> i < JS.length (times (sorted fs)) ->
  (exists c : Z,
     JS.index (times (sorted fs)) i = Some c
     /\ Forall (fun f => timeOf f <= c)
          (filtered toLowerCase (sorted fs) q (times (sorted fs)) i))
  /\ incl (filtered toLowerCase (sorted fs) q (times (sorted fs)) j)
          (filtered toLowerCase (sorted fs) q (times (sorted fs)) i).
Proof.
  intros Hj Hji Hi.
  destruct (JSFacts.index_in_range (times (sorted fs)) i) as [ci Ei]; [lia |].
  destruct (JSFacts.index_in_range (times (sorted fs)) j) as [cj Ej]; [lia |].
  assert (Hc : cj <= ci).
  { eapply JSFacts.sorted_index_le;
      [apply times_sorted | | exact Ej | exact Ei]. lia. }
  unfold filtered.
  set (base := if JS.truthy (JS.trim q) then _ else sorted fs).
  replace (JS.length (times (sorted fs)) >? 0) with true
    by (symmetry; apply Z.gtb_lt; lia).
  rewrite Ei, Ej. split.
  - exists ci. split; [reflexivity |].
    apply Forall_forall. intros f Hf. apply filter_In in Hf as [_ Hf].
    apply Z.leb_le in Hf. exact Hf.
  - intros f Hf. apply filter_In in Hf as [Hb Hf]. apply filter_In.
    split; [exact Hb |]. simpl in *. apply Z.leb_le in Hf. apply Z.leb_le. lia.
Qed.

Lemma filtered_monotone_in_cursor_witness :
  let fs := [chile; alaska; tokyo; nowhere] in
  (exists c : Z,
     JS.index (times (sorted fs)) 3 = Some c
     /\ Forall (fun f => timeOf f <= c)
          (filtered asciiLower (sorted fs) (JS.str "a") (times (sorted fs)) 3))
  /\ incl (filtered asciiLower (sorted fs) (JS.str "a") (times (sorted fs)) 1)
          (filtered asciiLower (sorted fs) (JS.str "a") (times (sorted fs)) 3).
Proof.
  intros fs.
  apply (filtered_monotone_in_cursor asciiLower fs (JS.str "a") 3 1);
    vm_compute; congruence.
Defined.

(** C10: the pipeline is total for a cursor past the end; with timestamps
    present the cut-off is then undefined and the output is empty, and with
    no timestamps at all only the text filter is applied. *)
Theorem filtered_cursor_out_of_range
    (toLowerCase : JS.JsString -> JS.JsString)
    (s : list Feature) (q : JS.JsString) (ts : list Z) (i : Z) :
  (ts <> [] -> JS.length ts <= i ->
   JS.index ts i = None /\ filtered toLowerCase s q ts i = [])
  /\ filtered toLowerCase s q [] i
     = if JS.truthy (JS.trim q)
       then filter
              (fun f =>
                 JS.includes (toLowerCase (JS.orEmpty (place (properties f))))
                   (toLowerCase q))
              s
       else s.
Proof.
  split.
  - intros Hne Hi.
    pose proof (JSFacts.index_out_of_range ts i Hi) as E.
    split; [exact E |].
    unfold filtered. rewrite E.
    replace (JS.length ts >? 0) with true.
    + apply filter_none.
    + symmetry. apply Z.gtb_lt. unfold JS.length.
      destruct ts; [congruence | simpl; lia].
  - unfold filtered. reflexivity.
Qed.

Lemma filtered_cursor_out_of_range_witness :
  filtered asciiLower [tokyo; alaska] (JS.str "a") [100; 200] 2 = [].
Proof.
  apply (filtered_cursor_out_of_range asciiLower [tokyo; alaska] (JS.str "a")
           [100; 200] 2).
  - discriminate.
  - vm_compute. congruence.
Defined.

(** ** Fetch: reset, snap, failure and stale responses *)

Lemma featuresId_fresh (n : nat) : Nat.eqb n (S n) = false.
Proof. apply Nat.eqb_neq. lia. Qed.

Lemma times_length (fs : list Feature) :
  List.length (times (sorted fs)) = List.length fs.
Proof.
  unfold times. rewrite length_map.
  apply Permutation_length, (JSFacts.sort_perm timeOf).
Qed.

(** With the cursor on the last index and no text query, every event of a
    sorted array is visible. *)
Lemma filtered_last_index (toLowerCase : JS.JsString -> JS.JsString)
    (fs : list Feature) :
  filtered toLowerCase (sorted fs) [] (times (sorted fs))
    (JS.length (times (sorted fs)) - 1)
  = sorted fs.
Proof.
  unfold filtered. cbn [JS.trim JS.trimStart JS.trimEnd JS.truthy].
  destruct (Z.gtb_spec (JS.length (times (sorted fs))) 0) as [Hpos|_];
    [| reflexivity].
  destruct (JSFacts.index_in_range (times (sorted fs))
              (JS.length (times (sorted fs)) - 1)) as [c Ec]; [lia |].
  rewrite Ec. apply forallb_filter_id. apply forallb_forall.
  intros f Hf. simpl. apply Z.leb_le.
  apply (in_map (fun f => time (properties f))) in Hf.
  fold (times (sorted fs)) in Hf.
  apply In_nth_error in Hf as [k Hk].
  assert (Hlt : (k < List.length (times (sorted fs)))%nat)
    by (apply nth_error_Some; congruence).
  apply (JSFacts.sorted_index_le (times (sorted fs)) (Z.of_nat k)
           (JS.length (times (sorted fs)) - 1)).
  - apply times_sorted.
  - unfold JS.length. lia.
  - apply JSFacts.index_Some. rewrite Nat2Z.id. split; [lia | exact Hk].
  - exact Ec.
Qed.

Lemma run_cancelled {E : Type} (r : ResponseOf E) (st : AppStateOf E) :
  run true r st = (Normal tt, st).
Proof. destruct r as [| | |[|field]]; reflexivity. Qed.

Lemma run_live_features {E : Type} (r : ResponseOf E) (st : AppStateOf E) :
  fst (run false r st) = Normal tt
  /\ features (snd (run false r st)) = storeAfter r
  /\ querying (snd (run false r st)) = false.
Proof. destruct r as [| | |[|[fs|]]]; repeat split. Qed.

Lemma commit_same (st : AppState) : commit st st = st.
Proof.
  unfold commit.
  now rewrite Nat.eqb_refl, Bool.eqb_reflx, Z.eqb_refl.
Qed.

Lemma commit_features (prev cur : AppState) :
  features (commit prev cur) = features cur
  /\ querying (commit prev cur) = querying cur.
Proof.
  unfold commit, autoPlayEffect, snapEffect.
  destruct (Nat.eqb _ _), (Bool.eqb _ _ && _);
    try destruct (JS.length (timesOf cur) >? 0); split; reflexivity.
Qed.

(** C4, as stated, fails on a failed fetch: the handler empties the store
    and leaves the cursor where it was. *)
Lemma failed_fetch_cursor_counterexample :
  let st : AppState :=
    mkAppState [tokyo; alaska; nowhere; chile] 1 3 false true false in
  let st1 := snd (run false FetchRejects st) in
  features st1 = [] /\ timeIndex st1 <> 0 /\ timeIndex (commit st st1) <> 0.
Proof. repeat split; vm_compute; discriminate. Qed.

(** C4 (amended): after every fetch whose response is applied by the
    success path (a resolved body, whose [features] is stored when it is an
    array and the empty collection otherwise), the cursor is first reset to
    0 and then, when the timestamps are non-empty, moved to
    [times.length - 1], where the whole sorted set is revealed. *)
Theorem fetch_success_resets_then_snaps
    (toLowerCase : JS.JsString -> JS.JsString)
    (st : AppState) (field : option (list Feature)) :
  let st1 := snd (run false (Resolved (JsonValue field)) st) in
  let st2 := commit st st1 in
  features st1 = arrayOrEmpty field
  /\ timeIndex st1 = 0
  /\ features st2 = arrayOrEmpty field
  /\ timeIndex st2
     = (if JS.length (timesOf st2) >? 0 then JS.length (timesOf st2) - 1 else 0)
  /\ filtered toLowerCase (sorted (features st2)) [] (timesOf st2) (timeIndex st2)
     = sorted (features st2).
Proof.
  intros st1 st2.
  assert (F2 : features st2 = arrayOrEmpty field)
    by (unfold st2; rewrite (proj1 (commit_features st st1)); reflexivity).
  assert (T2 : timeIndex st2
               = if JS.length (timesOf st2) >? 0
                 then JS.length (timesOf st2) - 1 else 0).
  { unfold timesOf. rewrite F2.
    unfold st2, commit, st1. cbn -[JS.length timesOf snapEffect sorted times].
    rewrite featuresId_fresh. unfold snapEffect, timesOf, autoPlayEffect.
    cbn -[JS.length sorted times].
    destruct (JS.length (times (sorted (arrayOrEmpty field))) >? 0);
      destruct (_ && _); reflexivity. }
  repeat split; try assumption.
  rewrite T2. unfold timesOf. rewrite F2.
  destruct (Z.gtb_spec (JS.length (times (sorted (arrayOrEmpty field)))) 0)
    as [Hpos|Hz].
  - apply filtered_last_index.
  - unfold JS.length in Hz.
    assert (E : arrayOrEmpty field = []).
    { pose proof (times_length (arrayOrEmpty field)) as L.
      destruct (arrayOrEmpty field); [reflexivity |].
      cbn [List.length] in L. lia. }
    rewrite E. reflexivity.
Qed.

(** *** Elements of the feed that are not features *)

Lemma insertC_perm {A : Type} (cmp : A -> A -> Completion Z) (x : A)
    (l r : list A) :
  JS.insertC cmp x l = Normal r -> Permutation r (x :: l).
Proof.
  revert r. induction l as [|y l IH]; intros r; cbn [JS.insertC].
  - intros E. injection E as <-. reflexivity.
  - destruct (cmp x y) as [c|]; [| discriminate]. cbn [bindC].
    destruct (c <=? 0).
    + intros E. injection E as <-. reflexivity.
    + destruct (JS.insertC cmp x l) as [r'|]; [| discriminate]. cbn [bindC].
      intros E. injection E as <-.
      rewrite (IH r' eq_refl). apply perm_swap.
Qed.

Lemma sortC_perm {A : Type} (cmp : A -> A -> Completion Z) (l r : list A) :
  JS.sortC cmp l = Normal r -> Permutation r l.
Proof.
  revert r. induction l as [|x l IH]; intros r; cbn [JS.sortC].
  - intros E. injection E as <-. reflexivity.
  - destruct (JS.sortC cmp l) as [s|]; [| discriminate]. cbn [bindC].
    intros E. apply insertC_perm in E. rewrite E. constructor. now apply IH.
Qed.

Lemma mapC_thrown {A B : Type} (f : A -> Completion B) (x : A) (l : list A) :
  In x l -> f x = Thrown -> mapC f l = Thrown.
Proof.
  intros Hin Hx. induction l as [|y l IH]; [contradiction |].
  cbn [mapC]. destruct Hin as [->|Hin].
  - now rewrite Hx.
  - destruct (f y); [| reflexivity]. cbn [bindC]. now rewrite (IH Hin).
Qed.

(** An element without [properties] anywhere in the stored array makes
    the render throw. *)
Lemma renderTimes_thrown (x : FeedItem) (items : list FeedItem) :
  In x items -> itemTime x = Thrown -> renderTimes items = Thrown.
Proof.
  intros Hin Hx. unfold renderTimes.
  destruct (JS.sortC compareItems items) as [s|] eqn:E; [| reflexivity].
  cbn [bindC]. apply (mapC_thrown itemTime x); [| exact Hx].
  apply sortC_perm in E. eapply Permutation_in; [symmetry; exact E | exact Hin].
Qed.

Lemma insertC_items (f : Feature) (l : list Feature) :
  JS.insertC compareItems (Item f) (map Item l)
  = Normal (map Item (JS.insert (cmpKey timeOf) f l)).
Proof.
  induction l as [|g l IH]; [reflexivity |].
  cbn [JS.insertC JS.insert map]. unfold compareItems at 1. cbn [itemTime bindC].
  unfold cmpKey at 1, timeOf.
  destruct (time (properties f) - time (properties g) <=? 0); [reflexivity |].
  rewrite IH. reflexivity.
Qed.

Lemma mapC_items (l : list Feature) :
  mapC itemTime (map Item l) = Normal (times l).
Proof.
  induction l as [|f l IH]; [reflexivity |].
  cbn [map mapC itemTime bindC]. rewrite IH. reflexivity.
Qed.

(** C7: with the body [{"features": [{}]}] the live run completes
    normally and stores the array as it is, so the store is not empty, and
    the next render throws on [f.properties.time]: the failure is fatal to
    the view.  The same happens further on in an array of features. *)
Theorem malformed_element_crashes_render :
  let st : AppStateOf FeedItem := mkAppState [] 0 0 false true false in
  let st1 := snd (run false (Resolved (JsonValue (Some [ItemBare]))) st) in
  let st2 :=
    snd (run false (Resolved (JsonValue (Some [Item tokyo; ItemBare; Item chile])))
           st) in
  fst (run false (Resolved (JsonValue (Some [ItemBare]))) st) = Normal tt
  /\ features st1 = [ItemBare]
  /\ renderTimes (features st1) = Thrown
  /\ features st2 = [Item tokyo; ItemBare; Item chile]
  /\ renderTimes (features st2) = Thrown.
Proof. repeat split. Qed.

(** *** Stale responses *)

Lemma step_OnlyCurrentLive (w : World) (e : Event) :
  OnlyCurrentLive (requests w) -> OnlyCurrentLive (requests (step w e)).
Proof.
  intros H. destruct e as [|n r]; simpl.
  - split; [reflexivity |].
    destruct (requests w) as [|c rs]; simpl in *; [constructor |].
    constructor; tauto.
  - destruct (cancelledOf w n); assumption.
Qed.

Lemma steps_OnlyCurrentLive (es : list Event) (w : World) :
  OnlyCurrentLive (requests w) -> OnlyCurrentLive (requests (steps w es)).
Proof.
  revert w. induction es as [|e es IH]; intros w H; simpl.
  - exact H.
  - apply IH, step_OnlyCurrentLive, H.
Qed.

Lemma cancelledOf_older (w : World) (n : nat) :
  OnlyCurrentLive (requests w) ->
  (S n < List.length (requests w))%nat ->
  cancelledOf w n = Some true.
Proof.
  unfold cancelledOf. destruct (requests w) as [|c rs]; simpl; [lia |].
  intros [_ Hrs] Hn.
  assert (Hlen : (n < List.length (rev rs))%nat) by (rewrite length_rev; lia).
  rewrite nth_error_app1 by exact Hlen.
  destruct (nth_error (rev rs) n) as [x|] eqn:E.
  - apply nth_error_In, in_rev in E.
    rewrite Forall_forall in Hrs. now rewrite (Hrs x E).
  - apply nth_error_None in E. lia.
Qed.

Lemma cancelledOf_current (w : World) :
  OnlyCurrentLive (requests w) ->
  requests w <> [] ->
  cancelledOf w (List.length (requests w) - 1) = Some false.
Proof.
  unfold cancelledOf. destruct (requests w) as [|c rs]; simpl; [congruence |].
  intros [-> _] _.
  rewrite nth_error_app2 by (rewrite length_rev; lia).
  rewrite length_rev. replace (List.length rs - 0 - List.length rs)%nat with 0%nat by lia.
  reflexivity.
Qed.

Lemma step_cancelled (w : World) (n : nat) (r : Response) :
  cancelledOf w n = Some true -> step w (Responded n r) = w.
Proof.
  intros E. simpl. rewrite E, run_cancelled. simpl.
  rewrite commit_same. now destruct w.
Qed.

Lemma step_live (w : World) (n : nat) (r : Response) :
  cancelledOf w n = Some false ->
  features (app (step w (Responded n r))) = storeAfter r
  /\ requests (step w (Responded n r)) = requests w.
Proof.
  intros E. simpl. rewrite E. simpl.
  rewrite (proj1 (commit_features _ _)).
  split; [apply run_live_features | reflexivity].
Qed.

(** C6: in a world reached by any history of parameter changes and
    responses, the response of a run older than the current one changes
    nothing, and whichever of the two responses arrives first, the store
    ends up with the result of the newest run. *)
Theorem stale_response_discarded
    (st0 : AppState) (es : list Event) (n : nat) (rOld rNew : Response) :
  let w := steps (mkWorld st0 []) es in
  let newest := (List.length (requests w) - 1)%nat in
  (S n < List.length (requests w))%nat ->
  step w (Responded n rOld) = w
  /\ features (app (steps w [Responded n rOld; Responded newest rNew]))
     = storeAfter rNew
  /\ features (app (steps w [Responded newest rNew; Responded n rOld]))
     = storeAfter rNew.
Proof.
  intros w newest Hn.
  assert (Inv : OnlyCurrentLive (requests w))
    by (apply steps_OnlyCurrentLive; exact I).
  assert (Old : cancelledOf w n = Some true)
    by (apply cancelledOf_older; assumption).
  assert (New : cancelledOf w newest = Some false).
  { apply cancelledOf_current; [exact Inv |].
    destruct (requests w); [simpl in Hn; lia | discriminate]. }
  pose proof (step_cancelled w n rOld Old) as Eold.
  destruct (step_live w newest rNew New) as [Fnew Rnew].
  split; [exact Eold |]. split.
  - simpl steps. fold (step w (Responded n rOld)). rewrite Eold. exact Fnew.
  - change (steps w [Responded newest rNew; Responded n rOld])
      with (step (step w (Responded newest rNew)) (Responded n rOld)).
    rewrite step_cancelled; [exact Fnew |].
    unfold cancelledOf in *. rewrite Rnew. exact Old.
Qed.

Lemma stale_response_discarded_witness :
  let a := Resolved (JsonValue (Some [tokyo])) in
  let b := Resolved (JsonValue (Some [alaska; chile])) in
  features
    (app (steps (mkWorld initialState [])
            [ParamsChanged; ParamsChanged; Responded 1 b; Responded 0 a]))
  = [alaska; chile].
Proof.
  intros a b.
  apply (stale_response_discarded initialState [ParamsChanged; ParamsChanged]
           0%nat a b).
  simpl. lia.
Defined.

(** ** Playback *)

Lemma ticks_S (n : nat) (st : AppState) : ticks (S n) st = tick (ticks n st).
Proof. reflexivity. Qed.

Lemma clickPlayPause_stopped (st : AppState) :
  isPlaying st = false ->
  clickPlayPause st
  = mkAppState (features st) (featuresId st) 0 true (querying st) true.
Proof.
  intros E. unfold clickPlayPause, handlePlayPause, commit. rewrite E.
  cbn -[timesOf JS.length snapEffect].
  rewrite Nat.eqb_refl. reflexivity.
Qed.

Lemma tick_armed (st : AppState) :
  interval st = true ->
  tick st
  = if timeIndex st <? JS.length (timesOf st) - 1
    then setTimeIndex (timeIndex st + 1) st
    else withInterval false st.
Proof. intros E. unfold tick. now rewrite E. Qed.

(** From the start of the timeline the cursor after [k] firings is [k],
    capped at the last index, where the timer is cleared. *)
Lemma ticks_from_start (fs : list Feature) (n : nat) (q : bool) (k : nat) :
  1 <= JS.length (times (sorted fs)) ->
  ticks k (mkAppState fs n 0 true q true)
  = mkAppState fs n (Z.min (Z.of_nat k) (JS.length (times (sorted fs)) - 1))
      true q (Z.of_nat k <=? JS.length (times (sorted fs)) - 1).
Proof.
  intros Hlen. induction k as [|k IH].
  - simpl. f_equal; [lia | symmetry; apply Z.leb_le; lia].
  - rewrite ticks_S, IH. unfold tick.
    cbn [interval timeIndex]. unfold timesOf. cbn [features].
    set (len := JS.length (times (sorted fs))) in *.
    destruct (Z.leb_spec (Z.of_nat k) (len - 1)) as [Hk|Hk].
    + destruct (Z.ltb_spec (Z.min (Z.of_nat k) (len - 1)) (len - 1)) as [Hlt|Hge].
      * unfold setTimeIndex. cbn. f_equal; [lia |].
        symmetry. apply Z.leb_le. lia.
      * unfold withInterval. cbn. f_equal; [lia |].
        symmetry. apply Z.leb_gt. lia.
    + f_equal; [lia |]. symmetry. apply Z.leb_gt. lia.
Qed.

Lemma tick_isPlaying (st : AppState) : isPlaying (tick st) = isPlaying st.
Proof.
  unfold tick. destruct (interval st); [| reflexivity].
  destruct (timeIndex st <? JS.length (timesOf st) - 1); reflexivity.
Qed.

Lemma ticks_isPlaying (n : nat) (st : AppState) :
  isPlaying (ticks n st) = isPlaying st.
Proof.
  induction n as [|n IH]; [reflexivity |].
  now rewrite ticks_S, tick_isPlaying.
Qed.
(** C5, as stated, fails once playback has run to the end: the period that
    finds the cursor on the last index clears the timer, the state stays
    Playing, and after a scrub back to the start the next period does not
    move a cursor that is below the last index. *)
Lemma playing_without_timer_counterexample :
  let w :=
    act (act (act (act (act (act (act (mkWorld initialState [])
      (Fetch ParamsChanged))
      (Fetch (Responded 0 (Resolved (JsonValue (Some [tokyo; alaska; chile]))))))
      PlayPause) TimerFires) TimerFires) TimerFires) (Scrub 0) in
  Reachable w
  /\ isPlaying (app w) = true
  /\ timeIndex (app w) < JS.length (timesOf (app w)) - 1
  /\ timeIndex (tick (app w)) <> timeIndex (app w) + 1.
Proof.
  intros w. split; [| repeat split; vm_compute; congruence].
  repeat (apply Reachable_act; [| try exact I]).
  - apply Reachable_first.
  - vm_compute. repeat split; congruence.
Qed.

(** C5 (amended): a play action in the Stopped state puts the cursor on 0
    and enters Playing with the timer armed.  While the timer is armed,
    every period of 500 ms adds one to a cursor below the last index; the
    period that finds the cursor at or past the last index leaves it
    unchanged, clears the timer and does not leave Playing, and without a
    timer a period changes nothing.  So [k] periods after play the cursor
    is [k] capped at the last index, and a play started at cursor 3 of 5
    reads 0, 1, 2, 3, 4 over four periods and 4 ever after. *)
Theorem playback_from_stopped (st : AppState) :
  isPlaying st = false ->
  let playing := clickPlayPause st in
  let last := JS.length (timesOf st) - 1 in
  (timeIndex playing = 0 /\ isPlaying playing = true /\ interval playing = true)
  /\ (forall s : AppState,
        interval s = true ->
        isPlaying (tick s) = isPlaying s
        /\ (timeIndex s < JS.length (timesOf s) - 1 ->
            timeIndex (tick s) = timeIndex s + 1 /\ interval (tick s) = true)
        /\ (JS.length (timesOf s) - 1 <= timeIndex s ->
            timeIndex (tick s) = timeIndex s /\ interval (tick s) = false))
  /\ (forall s : AppState, interval s = false -> tick s = s)
  /\ (features st <> [] ->
      forall k : nat,
        timeIndex (ticks k playing) = Z.min (Z.of_nat k) last
        /\ interval (ticks k playing) = (Z.of_nat k <=? last)
        /\ isPlaying (ticks k playing) = true)
  /\ (features st <> [] ->
      forall ms : Z,
        0 <= ms -> timeIndex (afterMs ms playing) = Z.min (ms / 500) last)
  /\ (List.length (features st) = 5%nat -> timeIndex st = 3 ->
      forall more : nat,
        cursorTrace (4 + more) playing = [0; 1; 2; 3; 4] ++ repeat 4 more).
Proof.
  intros Hstop playing last.
  assert (E : playing
              = mkAppState (features st) (featuresId st) 0 true (querying st) true)
    by (apply clickPlayPause_stopped; exact Hstop).
  assert (Hrun : features st <> [] ->
                 forall k, ticks k playing
                           = mkAppState (features st) (featuresId st)
                               (Z.min (Z.of_nat k) last) true (querying st)
                               (Z.of_nat k <=? last)).
  { intros Hne k. rewrite E. apply ticks_from_start.
    unfold JS.length. rewrite times_length.
    destruct (features st); [congruence | simpl; lia]. }
  split; [rewrite E; auto |].
  split; [| split; [| split; [| split]]].
  - intros s Hi. rewrite tick_isPlaying, tick_armed by exact Hi.
    split; [reflexivity |]. split; intros H.
    + replace (timeIndex s <? JS.length (timesOf s) - 1) with true
        by (symmetry; apply Z.ltb_lt; exact H).
      split; [reflexivity | exact Hi].
    + replace (timeIndex s <? JS.length (timesOf s) - 1) with false
        by (symmetry; apply Z.ltb_ge; exact H).
      split; reflexivity.
  - intros s Hi. unfold tick. now rewrite Hi.
  - intros Hne k. rewrite (Hrun Hne k). repeat split.
  - intros Hne ms Hms. unfold afterMs, intervalMs. rewrite (Hrun Hne).
    cbn [timeIndex]. rewrite Z2Nat.id; [reflexivity |].
    apply Z.div_pos; lia.
  - intros Hfive _ more.
    assert (Hne : features st <> [])
      by (destruct (features st); [discriminate | discriminate]).
    assert (Hlast : last = 4).
    { unfold last, timesOf, JS.length. rewrite times_length, Hfive. reflexivity. }
    assert (Hk : forall k, timeIndex (ticks k playing) = Z.min (Z.of_nat k) 4).
    { intros k. rewrite (Hrun Hne k), Hlast. reflexivity. }
    assert (G : forall m start, (5 <= start)%nat ->
                map (fun k => timeIndex (ticks k playing)) (seq start m)
                = repeat 4 m).
    { induction m as [|m IH]; intros start Hs; [reflexivity |].
      cbn [seq map repeat]. rewrite Hk, IH by lia. f_equal. lia. }
    unfold cursorTrace.
    change (S (4 + more)) with (5 + more)%nat. rewrite seq_app, map_app.
    f_equal.
    + cbn [seq map]. now rewrite !Hk.
    + apply G. simpl. lia.
Qed.

Lemma playback_from_stopped_witness :
  let st : AppState :=
    mkAppState [tokyo; alaska; nowhere; chile; tokyo] 1 3 false false false in
  cursorTrace 6 (clickPlayPause st) = [0; 1; 2; 3; 4; 4; 4]
  /\ timeIndex (afterMs 1700 (clickPlayPause st)) = 3.
Proof.
  intros st.
  destruct (playback_from_stopped st eq_refl) as [_ [_ [_ [_ [Hms Htrace]]]]].
  split.
  - apply (Htrace eq_refl eq_refl 2%nat).
  - rewrite Hms; [reflexivity | discriminate | lia].
Defined.

(** ** Rendering *)

Lemma max_ge_left (a b : Q) : (a <= JS.max a b)%Q.
Proof.
  unfold JS.max. destruct (Qle_bool a b) eqn:E.
  - now apply Qle_bool_iff.
  - apply Qle_refl.
Qed.

Lemma Iterable_dec (f : Feature) : {Iterable f} + {~ Iterable f}.
Proof.
  unfold Iterable. destruct (geometry f) as [[[ | | |]]|]; auto.
Qed.

(** What the two callbacks return for an event whose coordinates can be
    iterated over. *)
Lemma render_one (f : Feature) :
  Iterable f ->
  match numericPosition f with
  | Some p =>
      exists (m : CircleMarker) (pt : HeatPoint),
        circleMarker f = Normal (Some m)
        /\ heatPoint f = Normal (Some pt)
        /\ center m = p /\ key m = id f /\ latLngOfPoint pt = p
        /\ (1 # 10 <= intensity pt)%Q
        /\ (3 <= radius m)%Q /\ color m = fillColor m
  | None => circleMarker f = Normal None /\ heatPoint f = Normal None
  end.
Proof.
  unfold Iterable, numericPosition, circleMarker, heatPoint, destructure.
  destruct (geometry f) as [[[ |cs|s| ]]|]; cbn [coordinates bindC];
    try (intros _; split; reflexivity); [| | contradiction].
  - intros _.
    destruct cs as [|[lng| | | |] [|[lat| | | |] cs]];
      cbn [nth_error]; try (split; reflexivity).
    eexists. eexists. repeat split; apply max_ge_left.
  - intros _. destruct s as [|c [|d s]]; split; reflexivity.
Qed.

Lemma render_one_thrown (f : Feature) :
  ~ Iterable f -> circleMarker f = Thrown /\ heatPoint f = Thrown.
Proof.
  unfold Iterable, circleMarker, heatPoint, destructure.
  destruct (geometry f) as [[[ |cs|s| ]]|]; cbn [coordinates];
    try (intros H; exfalso; apply H; exact I).
  intros _. split; reflexivity.
Qed.

(** C8: an event whose coordinates are an object is not left out: the
    destructuring throws while the callback runs and the whole render
    fails, in circles mode and in heat mode, although the same events
    without it are drawn. *)
Theorem non_iterable_coordinates_crash_render :
  drawnMarkers [tokyo; objectCoordinates; chile] = Thrown
  /\ heatPoints [tokyo; objectCoordinates; chile] = Thrown
  /\ (exists ms : list CircleMarker,
        drawnMarkers [tokyo; chile] = Normal ms /\ map key ms = ["us1"; "us4"])
  /\ (exists ps : list HeatPoint,
        heatPoints [tokyo; chile] = Normal ps /\ List.length ps = 2%nat).
Proof.
  repeat split; try (eexists; split; reflexivity).
Qed.

(** ** Magnitude to colour and radius *)

Lemma Qle_bool_false (a b : Q) : Qle_bool a b = false -> (b < a)%Q.
Proof.
  intros E. apply Qnot_le_lt. intros H. apply Qle_bool_iff in H. congruence.
Qed.

(** Turn every boolean comparison of the context into its proposition. *)
Ltac qle_bool_to_prop :=
  repeat match goal with
         | H : Qle_bool _ _ = true |- _ => apply Qle_bool_iff in H
         | H : Qle_bool _ _ = false |- _ => apply Qle_bool_false in H
         end.

Lemma band_colour (m : Q) :
  (band m = 0%nat /\ magnitudeColor m = "#fee8c8")
  \/ (band m = 1%nat /\ magnitudeColor m = "#fdd49e")
  \/ (band m = 2%nat /\ magnitudeColor m = "#fdbb84")
  \/ (band m = 3%nat /\ magnitudeColor m = "#fc8d59")
  \/ (band m = 4%nat /\ magnitudeColor m = "#e34a33")
  \/ (band m = 5%nat /\ magnitudeColor m = "#b30000")
  \/ (band m = 6%nat /\ magnitudeColor m = "#7f0000").
Proof.
  unfold band, magnitudeColor, thresholds. cbn [filter].
  destruct (Qle_bool 2 m) eqn:E2; destruct (Qle_bool 3 m) eqn:E3;
    destruct (Qle_bool 4 m) eqn:E4; destruct (Qle_bool 5 m) eqn:E5;
    destruct (Qle_bool 6 m) eqn:E6; destruct (Qle_bool 7 m) eqn:E7;
    cbn [List.length]; try tauto; exfalso;
    qle_bool_to_prop; lra.
Qed.

(** C9, as stated, fails below magnitude -1, where the square grows again. *)
Lemma magToRadius_negative_counterexample :
  (-4 <= 0)%Q /\ ~ (magToRadius (-4) <= magToRadius 0)%Q.
Proof.
  split; [discriminate |].
  vm_compute. intros H. apply H. reflexivity.
Qed.

(** C9 (amended): for all magnitudes with [-1 <= m1 <= m2] the radius of
    [m1] is at most the radius of [m2], and two magnitudes get the same
    colour exactly when they lie in the same band of the thresholds
    2, 3, 4, 5, 6, 7. *)
Theorem radius_monotone_colour_banded (m1 m2 : Q) :
  ((-1 <= m1)%Q -> (m1 <= m2)%Q -> (magToRadius m1 <= magToRadius m2)%Q)
  /\ (magnitudeColor m1 = magnitudeColor m2 <-> band m1 = band m2).
Proof.
  split.
  - intros H1 H12. unfold magToRadius, JS.max.
    assert (Hsq : ((m1 + 1) * (m1 + 1) <= (m2 + 1) * (m2 + 1))%Q) by nra.
    destruct (Qle_bool 3 ((m1 + 1) * (m1 + 1))) eqn:E1;
      destruct (Qle_bool 3 ((m2 + 1) * (m2 + 1))) eqn:E2;
      qle_bool_to_prop; lra.
  - destruct (band_colour m1) as [[B1 C1]|[[B1 C1]|[[B1 C1]|[[B1 C1]|[[B1 C1]|[[B1 C1]|[B1 C1]]]]]]];
      destruct (band_colour m2) as [[B2 C2]|[[B2 C2]|[[B2 C2]|[[B2 C2]|[[B2 C2]|[[B2 C2]|[B2 C2]]]]]]];
      rewrite B1, B2, C1, C2; split; intros H; try reflexivity; discriminate.
Qed.

Lemma radius_monotone_colour_banded_witness :
  (magToRadius (25 # 10) <= magToRadius (61 # 10))%Q.
Proof.
  apply (radius_monotone_colour_banded (25 # 10) (61 # 10)); discriminate.
Defined.

(** * Further properties *)

(** ** The timeline under every action *)

Lemma clickPlayPause_playing (st : AppState) :
  isPlaying st = true ->
  clickPlayPause st
  = mkAppState (features st) (featuresId st) (timeIndex st) false
      (querying st) false.
Proof.
  intros E. unfold clickPlayPause, handlePlayPause, commit. rewrite E.
  cbn -[timesOf JS.length snapEffect]. rewrite Nat.eqb_refl. reflexivity.
Qed.

Lemma commit_timeIndex (prev cur : AppState) :
  features (commit prev cur) = features cur
  /\ isPlaying (commit prev cur) = isPlaying cur
  /\ timeIndex (commit prev cur)
     = if Nat.eqb (featuresId prev) (featuresId cur)
       then timeIndex cur
       else if JS.length (timesOf cur) >? 0
            then JS.length (timesOf cur) - 1
            else timeIndex cur.
Proof.
  unfold commit, autoPlayEffect, snapEffect.
  destruct (Nat.eqb _ _), (Bool.eqb _ _ && _);
    try destruct (JS.length (timesOf cur) >? 0); repeat split.
Qed.

Lemma run_live_frame (r : Response) (st : AppState) :
  featuresId (snd (run false r st)) = S (featuresId st)
  /\ isPlaying (snd (run false r st)) = isPlaying st
  /\ interval (snd (run false r st)) = interval st.
Proof. destruct r as [| | |[|[fs|]]]; repeat split. Qed.

Lemma CursorOk_same_features (st st' : AppState) :
  features st' = features st -> timeIndex st' = timeIndex st ->
  CursorOk st -> CursorOk st'.
Proof.
  unfold CursorOk, timelineShown, sliderMax, timesOf.
  intros -> ->. auto.
Qed.

Lemma CursorOk_step (w : World) (e : Event) :
  CursorOk (app w) -> CursorOk (app (step w e)).
Proof.
  intros H. destruct e as [|n r]; simpl.
  - exact H.
  - destruct (cancelledOf w n) as [[|]|]; simpl; [| | exact H].
    + rewrite run_cancelled. simpl. now rewrite commit_same.
    + destruct (commit_timeIndex (app w) (snd (run false r (app w))))
        as [Ef [_ Et]].
      rewrite (proj1 (run_live_frame r (app w))), featuresId_fresh in Et.
      unfold CursorOk, timelineShown, sliderMax, timesOf.
      rewrite Ef. fold (timesOf (snd (run false r (app w)))).
      intros Hs. rewrite Et, Hs.
      apply Z.gtb_lt in Hs. lia.
Qed.

Lemma CursorOk_act (w : World) (a : Action) :
  Possible w a -> CursorOk (app w) -> CursorOk (app (act w a)).
Proof.
  intros Hp H. destruct a as [e| | |v]; cbn [act app].
  - now apply CursorOk_step.
  - destruct (isPlaying (app w)) eqn:E.
    + rewrite clickPlayPause_playing by exact E.
      eapply CursorOk_same_features; [| | exact H]; reflexivity.
    + rewrite clickPlayPause_stopped by exact E.
      unfold CursorOk, timelineShown, sliderMax, timesOf. cbn [features timeIndex].
      intros Hs. apply Z.gtb_lt in Hs. lia.
  - unfold tick. destruct (interval (app w)); [| exact H].
    destruct (Z.ltb_spec (timeIndex (app w)) (JS.length (timesOf (app w)) - 1))
      as [Hlt|Hge].
    + unfold CursorOk, timelineShown, sliderMax, timesOf in *.
      cbn [setTimeIndex features timeIndex]. intros Hs.
      specialize (H Hs). lia.
    + eapply CursorOk_same_features; [| | exact H]; reflexivity.
  - destruct Hp as [_ Hv].
    unfold CursorOk, timelineShown, sliderMax, timesOf, onScrub in *.
    cbn [setTimeIndex features timeIndex]. intros _. exact Hv.
Qed.

(** X1: in every world the component can reach, while the timeline
    controls are shown the cursor lies between the slider's bounds and the
    timestamp of the label is defined. *)
Theorem reachable_cursor_in_range (w : World) :
  Reachable w ->
  timelineShown (app w) = true ->
  0 <= timeIndex (app w) <= sliderMax (app w)
  /\ exists t : Z, labelTime (app w) = Some t.
Proof.
  intros Hr Hs.
  assert (Hc : CursorOk (app w)).
  { clear Hs. induction Hr as [|w a Hr IH Hp].
    - unfold CursorOk. discriminate.
    - now apply CursorOk_act. }
  specialize (Hc Hs). split; [exact Hc |].
  apply JSFacts.index_in_range. unfold sliderMax in Hc. lia.
Qed.

Lemma reachable_cursor_in_range_witness :
  let w :=
    act (act (act (mkWorld initialState []) (Fetch ParamsChanged))
           (Fetch (Responded 0 (Resolved (JsonValue (Some [chile; tokyo; alaska]))))))
        (Scrub 1) in
  0 <= timeIndex (app w) <= sliderMax (app w)
  /\ exists t : Z, labelTime (app w) = Some t.
Proof.
  intros w. apply reachable_cursor_in_range.
  - repeat (apply Reachable_act; [| try exact I]).
    + apply Reachable_first.
    + vm_compute. repeat split; congruence.
  - reflexivity.
Defined.

(** ** The loading flag *)

Lemma steps_stale_unchanged (w : World) (stale : list (nat * Response)) :
  OnlyCurrentLive (requests w) ->
  Forall (fun nr => (S (fst nr) < List.length (requests w))%nat) stale ->
  steps w (map (fun nr => Responded (fst nr) (snd nr)) stale) = w.
Proof.
  intros Inv. induction 1 as [|[n r] stale Hn _ IH]; [reflexivity |].
  cbn [map steps fold_left fst snd] in *.
  rewrite step_cancelled by (apply cancelledOf_older; assumption).
  exact IH.
Qed.

(** X2: once the parameters have changed the loading flag is set, the
    responses of superseded runs, in any number and order, leave it set,
    and the response of the current run clears it. *)
Theorem loading_flag_waits_for_current_run
    (st0 : AppState) (es : list Event) (stale : list (nat * Response))
    (r : Response) :
  let w := step (steps (mkWorld st0 []) es) ParamsChanged in
  let newest := (List.length (requests w) - 1)%nat in
  let w' := steps w (map (fun nr => Responded (fst nr) (snd nr)) stale) in
  Forall (fun nr => (fst nr < newest)%nat) stale ->
  querying (app w') = true
  /\ querying (app (step w' (Responded newest r))) = false.
Proof.
  intros w newest w' Hstale.
  assert (Inv : OnlyCurrentLive (requests w)).
  { apply step_OnlyCurrentLive, steps_OnlyCurrentLive. exact I. }
  assert (E : w' = w).
  { apply steps_stale_unchanged; [exact Inv |].
    eapply Forall_impl; [| exact Hstale]. unfold newest. simpl. lia. }
  rewrite E. split; [reflexivity |].
  assert (New : cancelledOf w newest = Some false)
    by (apply cancelledOf_current; [exact Inv | discriminate]).
  cbn [step]. rewrite New. cbn [app].
  rewrite (proj2 (commit_features _ _)). apply run_live_features.
Qed.

Lemma loading_flag_waits_for_current_run_witness :
  let w := steps (mkWorld initialState [])
             [ParamsChanged; ParamsChanged; ParamsChanged;
              Responded 1 FetchRejects;
              Responded 0 (Resolved (JsonValue (Some [tokyo])))] in
  querying (app w) = true
  /\ querying (app (step w (Responded 2 JsonRejects))) = false.
Proof.
  intros w.
  apply (loading_flag_waits_for_current_run initialState
           [ParamsChanged; ParamsChanged]
           [(1%nat, FetchRejects); (0%nat, Resolved (JsonValue (Some [tokyo])))]
           JsonRejects).
  repeat constructor.
Defined.

(** ** Pause, scrub and the timer *)

Lemma tick_unarmed (st : AppState) : interval st = false -> tick st = st.
Proof. intros E. unfold tick. now rewrite E. Qed.

Lemma ticks_unarmed (n : nat) (st : AppState) :
  interval st = false -> ticks n st = st.
Proof.
  intros E. induction n as [|n IH]; [reflexivity |].
  rewrite ticks_S, IH. now apply tick_unarmed.
Qed.

(** While the timer is armed, [k] firings move a cursor on the slider [k]
    places up, capped at the last index, where the timer is cleared. *)
Lemma ticks_armed (fs : list Feature) (n : nat) (v : Z) (p q : bool) (k : nat) :
  v <= JS.length (times (sorted fs)) - 1 ->
  ticks k (mkAppState fs n v p q true)
  = mkAppState fs n (Z.min (v + Z.of_nat k) (JS.length (times (sorted fs)) - 1))
      p q (v + Z.of_nat k <=? JS.length (times (sorted fs)) - 1).
Proof.
  intros Hv. induction k as [|k IH].
  - simpl. f_equal; [lia | symmetry; apply Z.leb_le; lia].
  - rewrite ticks_S, IH. unfold tick.
    cbn [interval timeIndex]. unfold timesOf. cbn [features].
    set (len := JS.length (times (sorted fs))) in *.
    destruct (Z.leb_spec (v + Z.of_nat k) (len - 1)) as [Hk|Hk].
    + destruct (Z.ltb_spec (Z.min (v + Z.of_nat k) (len - 1)) (len - 1))
        as [Hlt|Hge].
      * unfold setTimeIndex. cbn. f_equal; [lia |].
        symmetry. apply Z.leb_le. lia.
      * unfold withInterval. cbn. f_equal; [lia |].
        symmetry. apply Z.leb_gt. lia.
    + f_equal; [lia |]. symmetry. apply Z.leb_gt. lia.
Qed.

(** X3: a click while Playing leaves the cursor and the events as they
    are, enters Stopped and clears the timer: no later timer period
    changes anything. *)
Theorem pause_keeps_cursor_and_stops_timer (st : AppState) :
  isPlaying st = true ->
  isPlaying (clickPlayPause st) = false
  /\ timeIndex (clickPlayPause st) = timeIndex st
  /\ features (clickPlayPause st) = features st
  /\ forall n : nat, ticks n (clickPlayPause st) = clickPlayPause st.
Proof.
  intros E. rewrite clickPlayPause_playing by exact E.
  repeat split. intros n. now apply ticks_unarmed.
Qed.

Lemma pause_keeps_cursor_and_stops_timer_witness :
  let st := mkAppState [tokyo; alaska; chile] 1 1 true false true in
  timeIndex (ticks 5 (clickPlayPause st)) = 1.
Proof.
  intros st.
  destruct (pause_keeps_cursor_and_stops_timer st eq_refl) as [_ [Ht [_ Hn]]].
  rewrite Hn. exact Ht.
Defined.

(** X4: a scrub while the timer is armed is where playback goes on from:
    [k] periods later the cursor is [k] places above the scrubbed value,
    capped at the last index, and the timer stays armed until it fires on
    the last index. *)
Theorem scrub_while_playing_continues (st : AppState) (v : Z) (k : nat) :
  interval st = true ->
  v <= sliderMax st ->
  timeIndex (ticks k (onScrub v st)) = Z.min (v + Z.of_nat k) (sliderMax st)
  /\ interval (ticks k (onScrub v st)) = (v + Z.of_nat k <=? sliderMax st)
  /\ isPlaying (ticks k (onScrub v st)) = isPlaying st.
Proof.
  destruct st as [fs n i p q a]. unfold sliderMax, timesOf, onScrub, setTimeIndex.
  cbn [features featuresId timeIndex isPlaying querying interval].
  intros -> Hv. rewrite ticks_armed by exact Hv. repeat split.
Qed.

Lemma scrub_while_playing_continues_witness :
  let st := mkAppState [tokyo; alaska; nowhere; chile] 1 3 true false true in
  timeIndex (ticks 2 (onScrub 0 st)) = 2.
Proof.
  intros st.
  destruct (scrub_while_playing_continues st 0 2 eq_refl) as [Ht _].
  - vm_compute. congruence.
  - exact Ht.
Defined.

(** X5: when playback has fired on the last index the timer is gone
    although the state is still Playing: after a scrub to any value no
    number of timer periods moves the cursor. *)
Theorem playback_timer_gone_after_end (st : AppState) (k j : nat) (v : Z) :
  isPlaying st = false ->
  features st <> [] ->
  sliderMax st < Z.of_nat k ->
  let ended := ticks k (clickPlayPause st) in
  isPlaying ended = true
  /\ interval ended = false
  /\ timeIndex ended = sliderMax st
  /\ ticks j (onScrub v ended) = onScrub v ended.
Proof.
  intros Hstop Hne Hk ended.
  assert (Hlen : 1 <= JS.length (times (sorted (features st)))).
  { unfold JS.length. rewrite times_length.
    destruct (features st); [congruence | simpl; lia]. }
  assert (E : ended
              = mkAppState (features st) (featuresId st)
                  (JS.length (times (sorted (features st))) - 1) true
                  (querying st) false).
  { unfold ended. rewrite clickPlayPause_stopped by exact Hstop.
    rewrite ticks_from_start by exact Hlen.
    unfold sliderMax, timesOf in Hk.
    f_equal; [lia | apply Z.leb_gt; lia]. }
  rewrite E. repeat split. now apply ticks_unarmed.
Qed.

Lemma playback_timer_gone_after_end_witness :
  let st := mkAppState [tokyo; alaska; chile] 1 2 false false false in
  timeIndex (ticks 4 (onScrub 0 (ticks 3 (clickPlayPause st)))) = 0.
Proof.
  intros st.
  destruct (playback_timer_gone_after_end st 3 4 0 eq_refl) as [_ [_ [_ H]]].
  - discriminate.
  - vm_compute. reflexivity.
  - rewrite H. reflexivity.
Defined.

(** ** More on the filter pipeline *)

(** The pipeline as its two stages. *)
Lemma filtered_stages (lower : JS.JsString -> JS.JsString)
    (s : list Feature) (q : JS.JsString) (ts : list Z) (i : Z) :
  filtered lower s q ts i
  = let base := if blank q then s else filter (textMatches lower q) s in
    if JS.length ts >? 0
    then filter (fun f => JS.le (timeOf f) (JS.index ts i)) base
    else base.
Proof.
  unfold filtered. rewrite JSFacts.truthy_trim.
  destruct (blank q); reflexivity.
Qed.

Lemma filter_swap {A : Type} (p1 p2 : A -> bool) (l : list A) :
  filter p1 (filter p2 l) = filter p2 (filter p1 l).
Proof.
  rewrite !filter_twice. apply filter_ext. intros x. apply andb_comm.
Qed.

Lemma filtered_is_filter (lower : JS.JsString -> JS.JsString)
    (s : list Feature) (q : JS.JsString) (ts : list Z) (i : Z) :
  exists p : Feature -> bool, filtered lower s q ts i = filter p s.
Proof.
  rewrite filtered_stages. cbv zeta.
  destruct (blank q), (JS.length ts >? 0).
  - eexists. reflexivity.
  - exists (fun _ => true). symmetry. apply forallb_filter_id.
    apply forallb_forall. reflexivity.
  - eexists. apply filter_twice.
  - eexists. reflexivity.
Qed.

Lemma filter_StronglySorted {A : Type} (R : A -> A -> Prop) (p : A -> bool)
    (l : list A) :
  StronglySorted R l -> StronglySorted R (filter p l).
Proof.
  induction 1 as [|x l Hl IH Hx]; simpl; [constructor |].
  destruct (p x); [| exact IH].
  constructor; [exact IH |].
  rewrite Forall_forall in *. intros y Hy. apply filter_In in Hy. now apply Hx.
Qed.

(** The last timestamp bounds the time of every event. *)
Lemma last_time_is_max (fs : list Feature) (c : Z) (f : Feature) :
  JS.index (times (sorted fs)) (JS.length (times (sorted fs)) - 1) = Some c ->
  In f (sorted fs) -> timeOf f <= c.
Proof.
  intros Ec Hf.
  apply (in_map (fun f => time (properties f))) in Hf.
  fold (times (sorted fs)) in Hf.
  apply In_nth_error in Hf as [k Hk].
  assert (Hlt : (k < List.length (times (sorted fs)))%nat)
    by (apply nth_error_Some; congruence).
  apply (JSFacts.sorted_index_le (times (sorted fs)) (Z.of_nat k)
           (JS.length (times (sorted fs)) - 1)).
  - apply times_sorted.
  - unfold JS.length. lia.
  - apply JSFacts.index_Some. rewrite Nat2Z.id. split; [lia | exact Hk].
  - exact Ec.
Qed.

(** On the last index the cut-off stage keeps whatever the text stage
    kept. *)
Lemma filtered_last_index_query (lower : JS.JsString -> JS.JsString)
    (fs : list Feature) (q : JS.JsString) :
  filtered lower (sorted fs) q (times (sorted fs))
    (JS.length (times (sorted fs)) - 1)
  = filtered lower (sorted fs) q [] 0.
Proof.
  rewrite !filtered_stages. cbv zeta.
  set (base := if blank q then sorted fs
               else filter (textMatches lower q) (sorted fs)).
  assert (Hbase : forall f, In f base -> In f (sorted fs)).
  { unfold base. destruct (blank q); [auto |].
    intros f Hf. now apply filter_In in Hf. }
  change (JS.length [] >? 0) with false. cbv iota.
  destruct (Z.gtb_spec (JS.length (times (sorted fs))) 0) as [Hpos|_];
    [| reflexivity].
  destruct (JSFacts.index_in_range (times (sorted fs))
              (JS.length (times (sorted fs)) - 1)) as [c Ec]; [lia |].
  rewrite Ec. apply forallb_filter_id, forallb_forall.
  intros f Hf. simpl. apply Z.leb_le.
  eapply last_time_is_max; [exact Ec | auto].
Qed.

(** X6: playback started in the Stopped state on a non-empty store ends
    with the cut-off on the last timestamp: from the period in which the
    cursor reaches the last index on, the events shown are those of the
    text filter alone. *)
Theorem playback_ends_fully_revealed
    (toLowerCase : JS.JsString -> JS.JsString)
    (st : AppState) (q : JS.JsString) (k : nat) :
  isPlaying st = false ->
  features st <> [] ->
  sliderMax st <= Z.of_nat k ->
  let s := ticks k (clickPlayPause st) in
  filtered toLowerCase (sorted (features s)) q (timesOf s) (timeIndex s)
  = filtered toLowerCase (sorted (features st)) q [] 0.
Proof.
  intros Hstop Hne Hk s.
  assert (Hlen : 1 <= JS.length (times (sorted (features st)))).
  { unfold JS.length. rewrite times_length.
    destruct (features st); [congruence | simpl; lia]. }
  unfold s. rewrite clickPlayPause_stopped by exact Hstop.
  rewrite ticks_from_start by exact Hlen.
  unfold timesOf. cbn [features timeIndex].
  unfold sliderMax, timesOf in Hk. rewrite Z.min_r by lia.
  apply filtered_last_index_query.
Qed.

Lemma playback_ends_fully_revealed_witness :
  let st : AppState := mkAppState [chile; tokyo; alaska] 1 0 false false false in
  let s := ticks 2 (clickPlayPause st) in
  filtered asciiLower (sorted (features s)) (JS.str "a") (timesOf s) (timeIndex s)
  = filtered asciiLower (sorted (features st)) (JS.str "a") [] 0.
Proof.
  intros st.
  apply (playback_ends_fully_revealed asciiLower st (JS.str "a") 2 eq_refl).
  - discriminate.
  - vm_compute. congruence.
Defined.

(** X7: the two stages commute: the pipeline output is the text filter
    applied to what the cut-off alone leaves, and the cut-off applied to
    what the text filter alone leaves. *)
Theorem text_and_cutoff_commute
    (toLowerCase : JS.JsString -> JS.JsString)
    (s : list Feature) (q : JS.JsString) (ts : list Z) (i : Z) :
  filtered toLowerCase s q ts i
  = filtered toLowerCase (filtered toLowerCase s [] ts i) q [] 0
  /\ filtered toLowerCase s q ts i
     = filtered toLowerCase (filtered toLowerCase s q [] 0) [] ts i.
Proof.
  rewrite !filtered_stages. cbv zeta.
  change (blank []) with true.
  change (JS.length [] >? 0) with false. cbv iota.
  destruct (blank q), (JS.length ts >? 0); split; try reflexivity.
  apply filter_swap.
Qed.

(** X8: whatever the query and the cursor, the events shown are in
    chronological order. *)
Theorem filtered_chronological
    (toLowerCase : JS.JsString -> JS.JsString)
    (fs : list Feature) (q : JS.JsString) (ts : list Z) (i : Z) :
  StronglySorted (fun a b => timeOf a <= timeOf b)
    (filtered toLowerCase (sorted fs) q ts i).
Proof.
  destruct (filtered_is_filter toLowerCase (sorted fs) q ts i) as [p ->].
  apply filter_StronglySorted. apply (JSFacts.sort_sorted timeOf).
Qed.

Lemma times_nth (s : list Feature) (k : nat) :
  nth_error (times s) k = option_map timeOf (nth_error s k).
Proof. unfold times. apply nth_error_map. Qed.

(** In a sorted array the events up to position [n] are at or before the
    time at [n], and the later ones at or after it. *)
Lemma sorted_split_at (fs : list Feature) (n : nat) (c : Z) :
  nth_error (times (sorted fs)) n = Some c ->
  Forall (fun f => timeOf f <= c) (firstn (S n) (sorted fs))
  /\ Forall (fun f => c <= timeOf f) (skipn (S n) (sorted fs)).
Proof.
  intros Ec.
  assert (Ei : JS.index (times (sorted fs)) (Z.of_nat n) = Some c)
    by (apply JSFacts.index_Some; rewrite Nat2Z.id; split; [lia | exact Ec]).
  split; apply Forall_forall; intros f Hf; apply In_nth_error in Hf as [k Hk].
  - assert (Hkn : (k < S n)%nat).
    { destruct (Nat.lt_ge_cases k (S n)) as [H|H]; [exact H |].
      rewrite nth_error_firstn in Hk.
      destruct (Nat.ltb_spec k (S n)); [lia | discriminate]. }
    rewrite nth_error_firstn in Hk.
    destruct (Nat.ltb_spec k (S n)); [| lia].
    apply (JSFacts.sorted_index_le (times (sorted fs)) (Z.of_nat k) (Z.of_nat n));
      [apply times_sorted | lia | | exact Ei].
    apply JSFacts.index_Some. rewrite Nat2Z.id. split; [lia |].
    now rewrite times_nth, Hk.
  - rewrite nth_error_skipn in Hk.
    apply (JSFacts.sorted_index_le (times (sorted fs)) (Z.of_nat n)
             (Z.of_nat (S n + k)));
      [apply times_sorted | lia | exact Ei |].
    apply JSFacts.index_Some. rewrite Nat2Z.id. split; [lia |].
    now rewrite times_nth, Hk.
Qed.

(** X9: with a blank query and the cursor on index [i] of the slider, the
    events shown are the first [i + 1] sorted events followed by the later
    events that share the timestamp of the cursor, and nothing else. *)
Theorem cursor_shows_prefix_and_ties
    (toLowerCase : JS.JsString -> JS.JsString)
    (fs : list Feature) (q : JS.JsString) (i : Z) :
  blank q = true ->
  0 <= i < JS.length (times (sorted fs)) ->
  exists (c : Z) (ties : list Feature),
    JS.index (times (sorted fs)) i = Some c
    /\ filtered toLowerCase (sorted fs) q (times (sorted fs)) i
       = firstn (S (Z.to_nat i)) (sorted fs) ++ ties
    /\ ties = filter (fun f => timeOf f =? c) (skipn (S (Z.to_nat i)) (sorted fs)).
Proof.
  intros Hq Hi.
  destruct (JSFacts.index_in_range _ _ Hi) as [c Ec].
  exists c, (filter (fun f => timeOf f =? c) (skipn (S (Z.to_nat i)) (sorted fs))).
  split; [exact Ec |]. split; [| reflexivity].
  rewrite filtered_stages, Hq. cbv zeta.
  replace (JS.length (times (sorted fs)) >? 0) with true
    by (symmetry; apply Z.gtb_lt; lia).
  rewrite Ec.
  apply JSFacts.index_Some in Ec as [_ Ec].
  destruct (sorted_split_at fs (Z.to_nat i) c Ec) as [Hfirst Hrest].
  rewrite <- (firstn_skipn (S (Z.to_nat i)) (sorted fs)) at 1.
  rewrite filter_app. f_equal.
  - apply forallb_filter_id, forallb_forall. intros f Hf.
    rewrite Forall_forall in Hfirst. simpl. apply Z.leb_le. now apply Hfirst.
  - apply filter_ext_in. intros f Hf.
    rewrite Forall_forall in Hrest. specialize (Hrest f Hf). simpl.
    destruct (Z.leb_spec (timeOf f) c), (Z.eqb_spec (timeOf f) c);
      try reflexivity; lia.
Qed.

Lemma cursor_shows_prefix_and_ties_witness :
  exists (c : Z) (ties : list Feature),
    JS.index (times (sorted [chile; alaska; tokyo; nowhere])) 1 = Some c
    /\ filtered asciiLower (sorted [chile; alaska; tokyo; nowhere]) [160%N; 32%N]
         (times (sorted [chile; alaska; tokyo; nowhere])) 1
       = firstn 2 (sorted [chile; alaska; tokyo; nowhere]) ++ ties
    /\ ties = filter (fun f => timeOf f =? c)
                (skipn 2 (sorted [chile; alaska; tokyo; nowhere])).
Proof.
  apply (cursor_shows_prefix_and_ties asciiLower [chile; alaska; tokyo; nowhere]
           [160%N; 32%N] 1).
  - reflexivity.
  - vm_compute. split; congruence.
Defined.

Lemma NoDup_map_filter {A B : Type} (g : A -> B) (p : A -> bool) (l : list A) :
  NoDup (map g l) -> NoDup (map g (filter p l)).
Proof.
  induction l as [|x l IH]; simpl; [auto |].
  intros H. inversion H as [|y l' Hx Hl]; subst.
  destruct (p x); [| auto]. simpl. constructor; [| auto].
  intros Hin. apply Hx. apply in_map_iff in Hin as [z [Ez Hz]].
  apply filter_In in Hz as [Hz _]. apply in_map_iff. eauto.
Qed.

(** The keys of the markers drawn are the ids of the events that have a
    position. *)
Lemma drawnMarkers_keys (l : list Feature) (ms : list CircleMarker) :
  drawnMarkers l = Normal ms -> map key ms = map id (filter hasPosition l).
Proof.
  unfold drawnMarkers, circleMarkers. revert ms.
  induction l as [|g l IH]; intros ms.
  - intros E. injection E as <-. reflexivity.
  - cbn [mapC filter]. unfold hasPosition at 1.
    destruct (Iterable_dec g) as [Hg|Hg].
    + pose proof (render_one g Hg) as Hr.
      destruct (mapC circleMarker l) as [rest|] eqn:El.
      * specialize (IH (JS.filterBoolean rest) eq_refl).
        destruct (numericPosition g) as [p|].
        -- destruct Hr as [m [pt [Hc [_ [_ [Hk _]]]]]]. rewrite Hc.
           cbn [bindC JS.filterBoolean]. intros E. injection E as <-.
           cbn [map]. now rewrite Hk, IH.
        -- destruct Hr as [Hc _]. rewrite Hc.
           cbn [bindC JS.filterBoolean]. intros E. injection E as <-. exact IH.
      * destruct (numericPosition g) as [p|].
        -- destruct Hr as [m [pt [Hc _]]]. rewrite Hc. discriminate.
        -- destruct Hr as [Hc _]. rewrite Hc. discriminate.
    + rewrite (proj1 (render_one_thrown g Hg)). discriminate.
Qed.

(** X10: when the ids of the fetched events are pairwise different, so are
    the keys of the markers drawn, whatever the query and the cursor. *)
Theorem marker_keys_unique
    (toLowerCase : JS.JsString -> JS.JsString)
    (fs : list Feature) (q : JS.JsString) (ts : list Z) (i : Z)
    (ms : list CircleMarker) :
  NoDup (map id fs) ->
  drawnMarkers (filtered toLowerCase (sorted fs) q ts i) = Normal ms ->
  NoDup (map key ms).
Proof.
  intros Hnd Hms. rewrite (drawnMarkers_keys _ _ Hms).
  destruct (filtered_is_filter toLowerCase (sorted fs) q ts i) as [p ->].
  do 2 apply NoDup_map_filter.
  eapply Permutation_NoDup; [| exact Hnd].
  apply Permutation_map. symmetry. apply (JSFacts.sort_perm timeOf).
Qed.

Lemma marker_keys_unique_witness :
  exists ms : list CircleMarker,
    drawnMarkers (filtered asciiLower (sorted [chile; alaska; tokyo]) (JS.str "a")
                    [100; 200; 300] 2) = Normal ms
    /\ NoDup (map key ms).
Proof.
  eexists. split; [reflexivity |].
  eapply (marker_keys_unique asciiLower [chile; alaska; tokyo] (JS.str "a")
            [100; 200; 300] 2).
  - repeat constructor; simpl; intuition discriminate.
  - reflexivity.
Defined.

(** X11: the case of the query does not matter: under any case mapping
    that maps blank strings, and only them, to blank strings (as
    [toLowerCase] does), two queries with the same lower-case form give
    the same output. *)
Theorem query_case_insensitive
    (toLowerCase : JS.JsString -> JS.JsString)
    (s : list Feature) (q1 q2 : JS.JsString) (ts : list Z) (i : Z) :
  (forall x, blank (toLowerCase x) = blank x) ->
  toLowerCase q1 = toLowerCase q2 ->
  filtered toLowerCase s q1 ts i = filtered toLowerCase s q2 ts i.
Proof.
  intros Hblank E. rewrite !filtered_stages.
  rewrite <- (Hblank q1), <- (Hblank q2), E.
  unfold textMatches. now rewrite E.
Qed.

Lemma blank_asciiLower (x : JS.JsString) : blank (asciiLower x) = blank x.
Proof.
  unfold blank, asciiLower. induction x as [|c x IH]; [reflexivity |].
  cbn [map forallb]. rewrite IH. f_equal.
  destruct (N.leb_spec 65 c); [| reflexivity].
  destruct (N.leb_spec c 90); [| reflexivity]. cbn [andb].
  assert (H1 : existsb (N.eqb (c + 32)) whiteSpace = false).
  { apply not_true_iff_false. rewrite existsb_exists.
    intros [y [Hin Hy]]. apply N.eqb_eq in Hy. subst y.
    unfold whiteSpace in Hin. simpl In in Hin. lia. }
  assert (H2 : existsb (N.eqb c) whiteSpace = false).
  { apply not_true_iff_false. rewrite existsb_exists.
    intros [y [Hin Hy]]. apply N.eqb_eq in Hy. subst y.
    unfold whiteSpace in Hin. simpl In in Hin. lia. }
  now rewrite H1, H2.
Qed.

Lemma query_case_insensitive_witness :
  filtered asciiLower [tokyo; alaska] (JS.str "JAPAN") [100; 200] 1
  = filtered asciiLower [tokyo; alaska] (JS.str "jaPan") [100; 200] 1.
Proof.
  apply (query_case_insensitive asciiLower [tokyo; alaska] (JS.str "JAPAN")
           (JS.str "jaPan") [100; 200] 1).
  - exact blank_asciiLower.
  - reflexivity.
Defined.

Lemma blank_false_nonempty (q : JS.JsString) : blank q = false -> q <> [].
Proof. intros H ->. discriminate. Qed.

(** X12: under any case mapping that maps the empty string, and only it,
    to the empty string (as [toLowerCase] does), an event without a place
    (absent, null or empty) is filtered out by every query that is not
    blank, and under a blank query it is kept whenever it passes the
    cut-off. *)
Theorem absent_place_needs_blank_query
    (toLowerCase : JS.JsString -> JS.JsString)
    (s : list Feature) (q : JS.JsString) (ts : list Z) (i : Z) (f : Feature) :
  toLowerCase [] = [] ->
  (forall x, toLowerCase x = [] -> x = []) ->
  placeText f = [] ->
  (blank q = false -> ~ In f (filtered toLowerCase s q ts i))
  /\ (blank q = true -> JS.le (timeOf f) (JS.index ts i) = true ->
      In f s -> In f (filtered toLowerCase s q ts i)).
Proof.
  intros Hnil Hinv Hp. split.
  - intros Hq Hin.
    assert (Hin' : In f (filter (textMatches toLowerCase q) s)).
    { rewrite filtered_stages, Hq in Hin. cbv zeta in Hin.
      destruct (JS.length ts >? 0); [| exact Hin].
      now apply filter_In in Hin. }
    apply filter_In in Hin' as [_ Hm].
    unfold textMatches in Hm. rewrite orEmpty_placeText, Hp, Hnil in Hm.
    destruct (toLowerCase q) as [|c r] eqn:E.
    + apply Hinv in E. now apply (blank_false_nonempty q Hq).
    + discriminate.
  - intros Hq Hle Hin. rewrite filtered_stages, Hq. cbv zeta.
    destruct (JS.length ts >? 0); [| exact Hin].
    apply filter_In. auto.
Qed.

Lemma asciiLower_empty (x : JS.JsString) : asciiLower x = [] -> x = [].
Proof. destruct x; [reflexivity | discriminate]. Qed.

Lemma absent_place_needs_blank_query_witness :
  ~ In nowhere (filtered asciiLower [tokyo; nowhere] (JS.str "a") [100; 200] 1)
  /\ In nowhere (filtered asciiLower [tokyo; nowhere] [160%N] [100; 200] 1).
Proof.
  destruct (absent_place_needs_blank_query asciiLower [tokyo; nowhere]
              (JS.str "a") [100; 200] 1 nowhere eq_refl asciiLower_empty eq_refl)
    as [Hout _].
  destruct (absent_place_needs_blank_query asciiLower [tokyo; nowhere]
              [160%N] [100; 200] 1 nowhere eq_refl asciiLower_empty eq_refl)
    as [_ Hin].
  split.
  - apply Hout. reflexivity.
  - apply Hin; [reflexivity | reflexivity | simpl; auto].
Defined.

(** ** More on the timeline index *)

Lemma map_insert {A : Type} (key : A -> Z) (x : A) (l : list A) :
  map key (JS.insert (cmpKey key) x l)
  = JS.insert (fun a b => a - b) (key x) (map key l).
Proof.
  induction l as [|y l IH]; [reflexivity |].
  cbn [JS.insert map]. unfold cmpKey at 1.
  destruct (key x - key y <=? 0); [reflexivity |].
  cbn [map]. now rewrite IH.
Qed.

(** X13: sorting is idempotent, and the timestamps are the time values of
    the feed sorted as numbers, one entry per event. *)
Theorem sorted_idempotent_times_sorted (fs : list Feature) :
  sorted (sorted fs) = sorted fs
  /\ times (sorted fs) = JS.sort (fun a b => a - b) (times fs)
  /\ List.length (times (sorted fs)) = List.length fs.
Proof.
  split; [| split].
  - symmetry. apply (JSFacts.stable_sort_unique timeOf).
    + apply (JSFacts.sort_sorted timeOf).
    + reflexivity.
  - unfold times, sorted. induction fs as [|f fs IH]; [reflexivity |].
    cbn [JS.sort map]. rewrite <- IH. apply (map_insert timeOf).
  - apply times_length.
Qed.

(** ** More on the fetch effect *)

Lemma run_never_throws_frame (cancelled : bool) (r : Response) (st : AppState) :
  isPlaying (snd (run cancelled r st)) = isPlaying st
  /\ interval (snd (run cancelled r st)) = interval st.
Proof.
  destruct cancelled.
  - rewrite run_cancelled. auto.
  - apply run_live_frame.
Qed.

(** X14: [run] never ends by a throw, whatever the response and whether or
    not the run was superseded, and it touches neither the playback state
    nor the timer. *)
Theorem run_never_throws (cancelled : bool) (r : Response) (st : AppState) :
  fst (run cancelled r st) = Normal tt
  /\ isPlaying (snd (run cancelled r st)) = isPlaying st
  /\ interval (snd (run cancelled r st)) = interval st.
Proof.
  destruct cancelled.
  - rewrite run_cancelled. auto.
  - split; [apply run_live_features | apply run_live_frame].
Qed.

(** ** More on rendering *)

(** X15: when the coordinates of every event can be iterated over, both
    views complete and show the same events at the same positions: one
    marker and one heat point, at [lat, lng], for each event whose
    coordinates start with two numbers, in order, and nothing for the
    others; the key of a marker is the id of its event, no heat point has
    an intensity below 0.1 and no marker a radius below 3, and a marker is
    filled with the colour of its outline. *)
Theorem render_modes_agree (l : list Feature) :
  Forall Iterable l ->
  exists (ms : list CircleMarker) (ps : list HeatPoint),
    drawnMarkers l = Normal ms
    /\ heatPoints l = Normal ps
    /\ map center ms = positions l
    /\ map latLngOfPoint ps = positions l
    /\ map key ms = map id (filter hasPosition l)
    /\ Forall (fun p => (1 # 10 <= intensity p)%Q) ps
    /\ Forall (fun m => (3 <= radius m)%Q /\ color m = fillColor m) ms.
Proof.
  unfold drawnMarkers, circleMarkers, heatPoints.
  induction 1 as [|f l Hf Hl IH].
  - exists [], []. repeat split; constructor.
  - destruct IH as [ms [ps [Em [Ep [Hc [Hp [Hk [Hi Hr]]]]]]]].
    pose proof (render_one f Hf) as Hone.
    cbn [mapC positions filter]. unfold hasPosition at 1.
    destruct (mapC circleMarker l) as [cl|]; [| discriminate].
    destruct (mapC heatPoint l) as [hl|]; [| discriminate].
    cbn [bindC] in Em, Ep. injection Em as <-. injection Ep as <-.
    destruct (numericPosition f) as [p|].
    + destruct Hone as [m [pt [Ec [Eh [Hcen [Hkey [Hll [Hint [Hrad Hcol]]]]]]]]].
      rewrite Ec, Eh. cbn [bindC JS.filterBoolean].
      exists (m :: JS.filterBoolean cl), (pt :: JS.filterBoolean hl).
      cbn [map]. rewrite Hc, Hp, Hk, Hcen, Hll, Hkey.
      repeat split; try constructor; auto.
    + destruct Hone as [Ec Eh]. rewrite Ec, Eh. cbn [bindC JS.filterBoolean].
      exists (JS.filterBoolean cl), (JS.filterBoolean hl).
      repeat split; assumption.
Qed.

Lemma render_modes_agree_witness :
  exists (ms : list CircleMarker) (ps : list HeatPoint),
    drawnMarkers [tokyo; badLatitude; nowhere] = Normal ms
    /\ heatPoints [tokyo; badLatitude; nowhere] = Normal ps
    /\ map center ms = [(35 # 1, 139 # 1); (35 # 1, 139 # 1)]
    /\ map latLngOfPoint ps = [(35 # 1, 139 # 1); (35 # 1, 139 # 1)].
Proof.
  destruct (render_modes_agree [tokyo; badLatitude; nowhere])
    as [ms [ps [Em [Ep [Hc [Hp _]]]]]].
  - repeat constructor.
  - exists ms, ps. auto.
Defined.

(** X16: an event whose coordinates are a truthy value that cannot be
    iterated over (an object, a non-zero number, [true]) makes the render
    throw wherever it stands in the list, in circles mode and in heat
    mode. *)
Theorem render_throws_on_non_iterable (l : list Feature) (f : Feature) :
  In f l -> ~ Iterable f ->
  drawnMarkers l = Thrown /\ heatPoints l = Thrown.
Proof.
  intros Hin Hf. destruct (render_one_thrown f Hf) as [Ec Eh].
  unfold drawnMarkers, circleMarkers, heatPoints.
  rewrite (mapC_thrown circleMarker f l Hin Ec).
  rewrite (mapC_thrown heatPoint f l Hin Eh). split; reflexivity.
Qed.

Lemma render_throws_on_non_iterable_witness :
  drawnMarkers [tokyo; alaska; objectCoordinates] = Thrown
  /\ heatPoints [tokyo; alaska; objectCoordinates] = Thrown.
Proof.
  apply (render_throws_on_non_iterable [tokyo; alaska; objectCoordinates]
           objectCoordinates).
  - simpl. auto.
  - intros H. exact H.
Defined.

(** ** More on the store *)

(** X21: on every failure that [run] detects (the URL builder throwing,
    the fetch or [json()] rejecting, a null body, a [features] field that
    is not an array) [run] completes normally; the live run leaves the
    store empty, which the next render accepts, and the loading flag
    cleared, and a superseded run changes nothing. *)
Theorem fetch_failure_recovers
    (st : AppStateOf FeedItem) (r : ResponseOf FeedItem) (cancelled : bool) :
  FetchFailed r ->
  fst (run cancelled r st) = Normal tt
  /\ (cancelled = false ->
      features (snd (run cancelled r st)) = []
      /\ querying (snd (run cancelled r st)) = false
      /\ renderTimes (features (snd (run cancelled r st))) = Normal [])
  /\ (cancelled = true -> snd (run cancelled r st) = st).
Proof.
  intros Hfail. destruct cancelled.
  - rewrite run_cancelled. repeat split; intros; congruence.
  - destruct (run_live_features r st) as [Hc [Hf Hq]].
    assert (E : storeAfter r = [])
      by (destruct r as [| | |[|[fs|]]]; try reflexivity; contradiction).
    split; [exact Hc |]. split; [| discriminate].
    intros _. rewrite Hf, Hq, E. repeat split.
Qed.

Lemma fetch_failure_recovers_witness :
  let st : AppStateOf FeedItem :=
    mkAppState [Item tokyo; Item alaska] 4 1 false true false in
  fst (run false JsonRejects st) = Normal tt
  /\ features (snd (run false JsonRejects st)) = []
  /\ querying (snd (run false JsonRejects st)) = false.
Proof.
  intros st.
  destruct (fetch_failure_recovers st JsonRejects false) as [Hc [Hlive _]].
  - exact I.
  - destruct (Hlive eq_refl) as [Hf [Hq _]]. auto.
Defined.

Lemma sortC_items (fs : list Feature) :
  JS.sortC compareItems (map Item fs) = Normal (map Item (sorted fs)).
Proof.
  unfold sorted. induction fs as [|f fs IH]; [reflexivity |].
  cbn [map JS.sortC JS.sort]. rewrite IH. cbn [bindC].
  apply insertC_items.
Qed.

(** X22: on an array of features the render computes [times] of [sorted]
    and does not throw; an array that holds [null] or an object without
    [properties] anywhere makes it throw, however many features stand
    beside it. *)
Theorem renderTimes_features_or_throw (fs : list Feature) (items : list FeedItem) :
  renderTimes (map Item fs) = Normal (times (sorted fs))
  /\ (In ItemNull items \/ In ItemBare items -> renderTimes items = Thrown).
Proof.
  split.
  - unfold renderTimes. rewrite sortC_items. cbn [bindC]. apply mapC_items.
  - intros [H|H]; eapply renderTimes_thrown; eauto.
Qed.

Lemma renderTimes_features_or_throw_witness :
  renderTimes [Item chile; ItemNull; Item tokyo] = Thrown.
Proof.
  apply (renderTimes_features_or_throw [] [Item chile; ItemNull; Item tokyo]).
  left. simpl. auto.
Defined.

(** ** The heat layer on the map *)

Lemma removeLayer_own (own : HeatLayer) (m m0 : LeafletMap) :
  MapOk m0 ->
  layers m = own :: layers m0 ->
  (created m0 <= layerId own)%nat ->
  layers (removeLayer (layerId own) m) = layers m0.
Proof.
  intros Hok El Hid. unfold removeLayer. cbn [layers]. rewrite El.
  cbn [filter]. rewrite Nat.eqb_refl. cbn [negb].
  apply forallb_filter_id, forallb_forall. intros l Hl.
  unfold MapOk in Hok. rewrite Forall_forall in Hok. specialize (Hok l Hl).
  apply negb_true_iff, Nat.eqb_neq. lia.
Qed.

(** The clean-up gives the map back with the layers it had at first. *)
Lemma runCleanup_restores (m0 : LeafletMap) (w : MapWorld) :
  MapOk m0 -> HeatInv m0 w ->
  exists m : LeafletMap,
    runCleanup w = Some m
    /\ layers m = layers m0
    /\ (created m0 <= created m)%nat.
Proof.
  unfold HeatInv, runCleanup. intros Hok.
  destruct (leaflet w) as [m|]; [| contradiction].
  intros [Hc Hp]. destruct (pending w) as [i|].
  - destruct Hp as [own [<- [El Hid]]].
    exists (removeLayer (layerId own) m). split; [reflexivity |].
    split; [| exact Hc].
    apply removeLayer_own; [exact Hok | exact El | lia].
  - exists m. auto.
Qed.

Lemma renderHeatmap_HeatInv (m0 : LeafletMap) (w : MapWorld) (p : list HeatPoint) :
  MapOk m0 -> HeatInv m0 w ->
  HeatInv m0 (renderHeatmap p w)
  /\ exists own : HeatLayer,
       layersOf (renderHeatmap p w) = own :: layers m0
       /\ latlngs own = p
       /\ layerOptions own = appHeatOptions.
Proof.
  intros Hok Hinv.
  destruct (runCleanup_restores m0 w Hok Hinv) as [m [Em [El Hc]]].
  unfold renderHeatmap, layersOf. rewrite Em.
  unfold heatmapEffect, heatLayer, addTo, HeatInv. cbn. split.
  - split; [lia |]. exists (mkHeatLayer (created m) p appHeatOptions).
    rewrite El. repeat split; lia.
  - exists (mkHeatLayer (created m) p appHeatOptions).
    rewrite El. repeat split.
Qed.

Lemma renders_HeatInv (m0 : LeafletMap) (ps : list (list HeatPoint)) (w : MapWorld) :
  MapOk m0 -> HeatInv m0 w -> HeatInv m0 (renders ps w).
Proof.
  intros Hok. revert w. induction ps as [|p ps IH]; intros w Hinv; [exact Hinv |].
  apply IH. now apply renderHeatmap_HeatInv.
Qed.

Lemma HeatInv_first (m0 : LeafletMap) : HeatInv m0 (mkMapWorld (Some m0) None).
Proof. unfold HeatInv. simpl. auto. Qed.

(** X17: however often [HeatmapLayer] of App.jsx is rendered with new
    points, the map holds exactly one heat layer besides the layers it had
    before, that layer carries the points of the latest render and the
    options of the component, and unmounting removes it again. *)
Theorem heatmap_single_layer
    (m0 : LeafletMap) (ps : list (list HeatPoint)) (p : list HeatPoint) :
  MapOk m0 ->
  let w := renderHeatmap p (renders ps (mkMapWorld (Some m0) None)) in
  (exists own : HeatLayer,
     layersOf w = own :: layers m0
     /\ latlngs own = p
     /\ layerOptions own = appHeatOptions)
  /\ layersOf (unmountHeatmap w) = layers m0.
Proof.
  intros Hok w.
  assert (Hinv : HeatInv m0 (renders ps (mkMapWorld (Some m0) None)))
    by (apply renders_HeatInv; [exact Hok | apply HeatInv_first]).
  destruct (renderHeatmap_HeatInv m0 _ p Hok Hinv) as [Hw Hown].
  split; [exact Hown |].
  destruct (runCleanup_restores m0 w Hok Hw) as [m [Em [El _]]].
  unfold unmountHeatmap, layersOf. cbn [leaflet]. now rewrite Em.
Qed.

Lemma heatmap_single_layer_witness :
  let m0 := mkLeafletMap [mkHeatLayer 0 [] standaloneHeatOptions] 1 in
  let p1 := [(35 # 1, 139 # 1, 45 # 10)] in
  let p2 := [(61 # 1, -150 # 1, 2 # 1); (35 # 1, 139 # 1, 45 # 10)] in
  let w := renderHeatmap p2 (renders [[]; p1] (mkMapWorld (Some m0) None)) in
  List.length (layersOf w) = 2%nat
  /\ layersOf (unmountHeatmap w) = layers m0.
Proof.
  intros m0 p1 p2 w.
  destruct (heatmap_single_layer m0 [[]; p1] p2) as [[own [El _]] Hu].
  - repeat constructor.
  - split; [fold w in El; now rewrite El | exact Hu].
Defined.

Lemma renderStandalone_HeatInv
    (m0 : LeafletMap) (w : MapWorld) (p : option (list HeatPoint)) :
  MapOk m0 -> HeatInv m0 w ->
  HeatInv m0 (renderStandalone p w)
  /\ match p with
     | Some (x :: p') =>
         exists own : HeatLayer,
           layersOf (renderStandalone p w) = own :: layers m0
           /\ latlngs own = x :: p'
           /\ layerOptions own = standaloneHeatOptions
     | _ => layersOf (renderStandalone p w) = layers m0
     end.
Proof.
  intros Hok Hinv.
  destruct (runCleanup_restores m0 w Hok Hinv) as [m [Em [El Hc]]].
  unfold renderStandalone, layersOf. rewrite Em.
  unfold standaloneEffect, HeatInv.
  destruct p as [[|x p']|]; cbn; try (repeat split; assumption).
  split.
  - split; [lia |]. exists (mkHeatLayer (created m) (x :: p') standaloneHeatOptions).
    rewrite El. repeat split; lia.
  - exists (mkHeatLayer (created m) (x :: p') standaloneHeatOptions).
    rewrite El. repeat split.
Qed.

Lemma rendersStandalone_HeatInv
    (m0 : LeafletMap) (ps : list (option (list HeatPoint))) (w : MapWorld) :
  MapOk m0 -> HeatInv m0 w -> HeatInv m0 (rendersStandalone ps w).
Proof.
  intros Hok. revert w. induction ps as [|p ps IH]; intros w Hinv; [exact Hinv |].
  apply IH. now apply renderStandalone_HeatInv.
Qed.

(** X18: the stand-alone heat layer component keeps a heat layer on the
    map exactly while the latest points are a non-empty array: after any
    history of renders the map holds its earlier layers and, when the
    latest points are non-empty, one layer with those points; with absent
    or empty points no heat layer is left. *)
Theorem standalone_layer_only_for_points
    (m0 : LeafletMap) (ps : list (option (list HeatPoint)))
    (p : option (list HeatPoint)) :
  MapOk m0 ->
  let w := renderStandalone p (rendersStandalone ps (mkMapWorld (Some m0) None)) in
  match p with
  | Some (x :: p') =>
      exists own : HeatLayer,
        layersOf w = own :: layers m0
        /\ latlngs own = x :: p'
        /\ layerOptions own = standaloneHeatOptions
  | _ => layersOf w = layers m0
  end.
Proof.
  intros Hok w.
  assert (Hinv : HeatInv m0 (rendersStandalone ps (mkMapWorld (Some m0) None)))
    by (apply rendersStandalone_HeatInv; [exact Hok | apply HeatInv_first]).
  apply (renderStandalone_HeatInv m0 _ p Hok Hinv).
Qed.

Lemma standalone_layer_only_for_points_witness :
  let m0 := mkLeafletMap [] 0 in
  let p1 := [(35 # 1, 139 # 1, 45 # 10)] in
  layersOf (renderStandalone (Some [])
              (rendersStandalone [Some p1; None; Some p1] (mkMapWorld (Some m0) None)))
  = [].
Proof.
  intros m0 p1.
  apply (standalone_layer_only_for_points m0 [Some p1; None; Some p1] (Some [])).
  constructor.
Defined.

(** ** What the actions leave alone *)

Lemma commit_interval (prev cur : AppState) :
  interval (commit prev cur) = interval cur
  \/ interval (commit prev cur) = isPlaying cur.
Proof.
  unfold commit, autoPlayEffect, snapEffect.
  destruct (Nat.eqb _ _), (Bool.eqb _ _ && _);
    try destruct (JS.length (timesOf cur) >? 0); auto.
Qed.

Lemma Reachable_OnlyCurrentLive (w : World) :
  Reachable w -> OnlyCurrentLive (requests w).
Proof.
  induction 1 as [|w a Hr IH Hp]; [exact I |].
  destruct a as [e| | |v]; cbn [act requests]; try exact IH.
  now apply step_OnlyCurrentLive.
Qed.

(** X19: in every reachable world a timer is armed only in the Playing
    state: while Stopped no timer period can move the cursor. *)
Theorem timer_only_while_playing (w : World) :
  Reachable w ->
  interval (app w) = true -> isPlaying (app w) = true.
Proof.
  induction 1 as [|w a Hr IH Hp]; [discriminate |].
  destruct a as [e| | |v]; cbn [act app].
  - destruct e as [|n r]; [exact IH |]. cbn [step].
    destruct (cancelledOf w n) as [c|]; [| exact IH]. cbn [app].
    destruct (run_never_throws_frame c r (app w)) as [Ep Ei].
    destruct (commit_timeIndex (app w) (snd (run c r (app w)))) as [_ [Cp _]].
    rewrite Cp, Ep.
    destruct (commit_interval (app w) (snd (run c r (app w)))) as [E|E];
      rewrite E; [rewrite Ei; exact IH | now rewrite Ep].
  - destruct (isPlaying (app w)) eqn:E.
    + rewrite clickPlayPause_playing by exact E. discriminate.
    + rewrite clickPlayPause_stopped by exact E. reflexivity.
  - rewrite tick_isPlaying. unfold tick.
    destruct (interval (app w)) eqn:E; [| congruence].
    intros _. now apply IH.
  - exact IH.
Qed.

Lemma timer_only_while_playing_witness :
  let w :=
    act (act (act (mkWorld initialState []) (Fetch ParamsChanged))
           (Fetch (Responded 0 (Resolved (JsonValue (Some [chile; tokyo]))))))
        PlayPause in
  isPlaying (app w) = true.
Proof.
  intros w. apply timer_only_while_playing.
  - repeat (apply Reachable_act; [| exact I]). apply Reachable_first.
  - reflexivity.
Defined.

(** X20: the fetched events change only when the current run of the
    fetch effect responds: a click, a timer period, a scrub, a parameter
    change or the response of a superseded run leaves them as they are. *)
Theorem store_changes_only_on_current_response (w : World) (a : Action) :
  Reachable w ->
  features (app (act w a)) = features (app w)
  \/ exists r : Response,
       a = Fetch (Responded (List.length (requests w) - 1) r)
       /\ features (app (act w a)) = storeAfter r.
Proof.
  intros Hr. pose proof (Reachable_OnlyCurrentLive w Hr) as Inv.
  destruct a as [[|n r]| | |v]; cbn [act].
  - left. reflexivity.
  - destruct (Nat.lt_ge_cases (S n) (List.length (requests w))) as [Hold|Hnew].
    + left. rewrite step_cancelled; [reflexivity |].
      now apply cancelledOf_older.
    + destruct (Nat.eq_dec n (List.length (requests w) - 1)) as [->|Hne].
      * destruct (requests w) as [|c rs] eqn:Erq.
        -- left. cbn [step]. unfold cancelledOf. rewrite Erq. reflexivity.
        -- right. exists r. split; [reflexivity |].
           apply step_live. rewrite <- Erq. apply cancelledOf_current.
           ++ rewrite Erq. exact Inv.
           ++ rewrite Erq. discriminate.
      * left. cbn [step]. unfold cancelledOf.
        replace (nth_error (rev (requests w)) n) with (@None bool);
          [reflexivity |].
        symmetry. apply nth_error_None. rewrite length_rev. lia.
  - left. unfold clickPlayPause. cbn [app].
    rewrite (proj1 (commit_features _ _)). unfold handlePlayPause.
    destruct (isPlaying (app w)); reflexivity.
  - left. cbn [app]. unfold tick.
    destruct (interval (app w)); [| reflexivity].
    destruct (timeIndex (app w) <? JS.length (timesOf (app w)) - 1); reflexivity.
  - left. reflexivity.
Qed.

Lemma store_changes_only_on_current_response_witness :
  let w := act (mkWorld initialState []) (Fetch ParamsChanged) in
  features (app (act w (Scrub 0))) = features (app w)
  \/ exists r : Response,
       Scrub 0 = Fetch (Responded (List.length (requests w) - 1) r)
       /\ features (app (act w (Scrub 0))) = storeAfter r.
Proof.
  intros w. apply store_changes_only_on_current_response.
  apply Reachable_act; [apply Reachable_first | exact I].
Defined.
